(** * Unique replica checker: a shallow embedding of check_unique_replicas.py

    The Python program audits one Rucio storage element (RSE): for every
    dataset stored there it lists the files, asks the replica catalog where
    each file is AVAILABLE, and records the files whose only AVAILABLE copy is
    at the audited RSE.

    Embedding conventions.
    - Python [dict]s are stdpp [gmap]s; a [dict.get(k, default)] is a lookup
      with [default]; a missing key read with [d[k]] raises [KeyError].
    - Python exceptions are values of type [exn]; a computation that can raise
      returns a [result].  Methods of [UniqueReplicaChecker] that mutate
      [self.stats] or [self.unique_files] live in the monad [M], a state
      monad over the checker whose state survives a raised exception, as the
      fields of a Python object do.
    - The Rucio client is a record of response functions.  A response
      stands for the outcome of the rate-limited call as a whole: the
      [acquire] of the limiter sits in the same [try] block as the call, so
      an exception of either is handled alike.
    - Logging and the waiting done by the rate limiter change none of the
      values of the checker and are left out of its methods; the evaluation
      of the f-string arguments of a logging call is kept, since it can
      raise.  The gate of the limiter is modelled on its own, with the
      readings of the clock as inputs and the requested sleep as output.
    - The worker threads take the locks around every update of the
      statistics and of the registry; the tasks of the pool are modelled as
      run one after the other, in any order. *)

From stdpp Require Import base option list gmap strings sorting.
From Stdlib Require Import ZArith QArith Lia Lqa Ascii.

Close Scope Q_scope.
Local Open Scope string_scope.
Local Open Scope list_scope.
Local Open Scope nat_scope.
Local Open Scope general_if_scope.

(** ** Exceptions and results *)

Inductive exn : Type :=
  | DataIdentifierNotFound      (* subclass of RucioException *)
  | RSENotFound                 (* subclass of RucioException *)
  | RucioException
  | KeyError (key : string)
  | ValueError
  | IndexError
  | Exception.                  (* any other subclass of Exception *)

Inductive result (A : Type) : Type :=
  | Ok (a : A)
  | Raise (e : exn).
Arguments Ok {A} a.
Arguments Raise {A} e.

Global Instance result_ret : MRet result := λ A a, Ok a.
Global Instance result_bind : MBind result := λ A B k r,
  match r with
  | Ok a => k a
  | Raise e => Raise e
  end.

(** [d[key]] on a field that may be absent from a dict. *)
Definition getitem {A} (key : string) (field : option A) : result A :=
  match field with
  | Some a => Ok a
  | None => Raise (KeyError key)
  end.

(** ** Data model *)

(** A data identifier: the dict [{'scope': ..., 'name': ...}] the catalog
    uses for datasets and files. *)
Record did : Type := DID { did_scope : string; did_name : string }.

Global Instance did_eq_dec : EqDecision did.
Proof. solve_decision. Defined.

(** One replica record as yielded by [list_replicas]: a dict in which the
    code reads the keys 'scope', 'name', 'rses' and 'states'.  Each may be
    absent. *)
Record replica : Type := Replica {
  r_scope : option string;
  r_name : option string;
  r_rses : option (gmap string (list string));   (* rse -> list of PFNs *)
  r_states : option (gmap string string)         (* rse -> state *)
}.

Definition AVAILABLE : string := "AVAILABLE".

(** The statistics dict of [UniqueReplicaChecker.__init__]. *)
Definition initial_stats : gmap string Z :=
  <["datasets_found" := 0%Z]> (<["datasets_processed" := 0%Z]> (
  <["files_checked" := 0%Z]> (<["unique_files_found" := 0%Z]> (
  <["errors" := 0%Z]> (<["skipped" := 0%Z]> ∅))))).

(** The fields of [UniqueReplicaChecker] that the audit reads and writes. *)
Record UniqueReplicaChecker : Type := Checker {
  rse : string;
  unique_files : gmap string (list string);      (* scope -> [names] *)
  stats : gmap string Z
}.

Definition new_checker (target : string) : UniqueReplicaChecker :=
  {| rse := target; unique_files := ∅; stats := initial_stats |}.

(** ** The uniqueness evaluator *)

(** The list built by the loop over [states.items()].  A dict has each key
    once; the order of the items plays no role below, where the list is only
    asked whether it is the singleton of the target. *)
Definition available_rses (states : gmap string string) : list string :=
  (filter (λ kv, kv.2 = AVAILABLE) (map_to_list states)).*1.

Definition is_unique_at_rse (self : UniqueReplicaChecker) (replica_info : replica)
  : result bool :=
  let rses := default ∅ (r_rses replica_info) in
  let states := default ∅ (r_states replica_info) in
  if bool_decide (rses !! rse self = None) then
    (* the debug message formats replica_info['name'] *)
    _ ← getitem "name" (r_name replica_info); Ok false
  else if bool_decide (states !! rse self ≠ Some AVAILABLE) then
    _ ← getitem "name" (r_name replica_info); Ok false
  else
    let available := available_rses states in
    let is_unique :=
      bool_decide (length available = 1%nat)
      && bool_decide (available !! 0%nat = Some (rse self)) in
    if is_unique then
      (* the debug message formats replica_info['scope'] and ['name'] *)
      _ ← getitem "scope" (r_scope replica_info);
      _ ← getitem "name" (r_name replica_info); Ok true
    else
      _ ← getitem "name" (r_name replica_info); Ok false.

(** The set of endpoints whose state is AVAILABLE, and the condition under
    which the audited endpoint holds the only AVAILABLE copy. *)
Definition available_set (states : gmap string string) : gset string :=
  dom (filter (λ kv, kv.2 = AVAILABLE) states).

Definition sole_available_copy (target : string) (replica_info : replica) : Prop :=
  target ∈ dom (default ∅ (r_rses replica_info))
  ∧ default ∅ (r_states replica_info) !! target = Some AVAILABLE
  ∧ available_set (default ∅ (r_states replica_info)) = {[ target ]}.

Global Instance sole_available_copy_dec target replica_info :
  Decision (sole_available_copy target replica_info).
Proof. unfold sole_available_copy. apply _. Defined.

(** ** The rate limiter's constructor *)

(** [threading.Semaphore(value)] of the Python standard library: it raises
    [ValueError] when [value < 0] and otherwise holds [value] permits. *)
Definition Semaphore (value : Z) : result Z :=
  if bool_decide (value < 0)%Z then Raise ValueError else Ok value.

(** The fields set by [RateLimiter.__init__].  The time window, a Python
    float, is only stored by the constructor; it is a rational here. *)
Record RateLimiter : Type := Limiter {
  max_calls : Z;
  time_window : Q;
  semaphore : Z;
  call_times : list Q
}.

Definition RateLimiter_init (max_calls : Z) (time_window : Q) : result RateLimiter :=
  sem ← Semaphore max_calls;
  Ok {| max_calls := max_calls; time_window := time_window;
        semaphore := sem; call_times := [] |}.

(** ** The checker's monad *)

(** A method of the checker: it may change [self] and either returns or
    raises.  The changes made before an exception stay. *)
Definition M (A : Type) : Type :=
  UniqueReplicaChecker → UniqueReplicaChecker * result A.

Global Instance M_ret : MRet M := λ A a self, (self, Ok a).
Global Instance M_bind : MBind M := λ A B k m self,
  match m self with
  | (self', Ok a) => k a self'
  | (self', Raise e) => (self', Raise e)
  end.

Definition lift {A} (r : result A) : M A := λ self, (self, r).
Definition get_self : M UniqueReplicaChecker := λ self, (self, Ok self).

(** A [for] loop whose body updates the local variables [acc]. *)
Fixpoint for_each {A B} (body : B → A → M B) (acc : B) (l : list A) : M B :=
  match l with
  | [] => mret acc
  | x :: l' => acc' ← body acc x; for_each body acc' l'
  end.

(** ** Statistics *)

(** The body of [update_stats] on the statistics dict; [kwargs] lists the
    keyword arguments in the order they were passed. *)
Definition update_stats_dict (kwargs : list (string * Z)) (st : gmap string Z)
  : gmap string Z :=
  foldl (λ st kv,
           match st !! kv.1 with
           | Some old => <[kv.1 := (old + kv.2)%Z]> st
           | None => st
           end) st kwargs.

Definition set_stats (st : gmap string Z) (self : UniqueReplicaChecker)
  : UniqueReplicaChecker :=
  {| rse := rse self; unique_files := unique_files self; stats := st |}.

Definition update_stats (kwargs : list (string * Z)) : M unit := λ self,
  (set_stats (update_stats_dict kwargs (stats self)) self, Ok ()).

(** Reading one counter, as [self.stats[key]] for a key of the dict. *)
Definition stat (key : string) (self : UniqueReplicaChecker) : Z :=
  default 0%Z (stats self !! key).

(** ** The registry of unique files *)

(** [unique_files[scope].append(name)] on a [defaultdict(list)]. *)
Definition registry_append (scope name : string) (reg : gmap string (list string))
  : gmap string (list string) :=
  <[scope := default [] (reg !! scope) ++ [name]]> reg.

Definition set_unique_files (reg : gmap string (list string))
    (self : UniqueReplicaChecker) : UniqueReplicaChecker :=
  {| rse := rse self; unique_files := reg; stats := stats self |}.

Definition record_unique (scope name : string) : M unit := λ self,
  (set_unique_files (registry_append scope name (unique_files self)) self, Ok ()).

(** The names recorded under a scope, and the number of entries overall
    ([sum(len(names) for names in unique_files.values())] in [run]). *)
Definition names_of (scope : string) (reg : gmap string (list string)) : list string :=
  default [] (reg !! scope).

Definition total_unique (reg : gmap string (list string)) : nat :=
  map_fold (λ _ names n, (length names + n)%nat) 0%nat reg.

(** ** The catalog client *)

Record Client : Type := {
  list_datasets_per_rse : string → result (list did);
  list_files : string → string → result (list did);
  list_replicas : list did → result (list replica)
}.

Definition get_datasets_at_rse (client : Client) : M (list did) :=
  self ← get_self;
  match list_datasets_per_rse client (rse self) with
  | Ok datasets =>
      _ ← update_stats [("datasets_found", Z.of_nat (length datasets))];
      mret datasets
  | Raise e => lift (Raise e)
  end.

Definition get_files_in_dataset (client : Client) (scope name : string)
  : M (list did) :=
  match list_files client scope name with
  | Ok files => mret files
  | Raise DataIdentifierNotFound => _ ← update_stats [("errors", 1%Z)]; mret []
  | Raise (RSENotFound | RucioException) =>
      _ ← update_stats [("errors", 1%Z)]; mret []
  | Raise _ => _ ← update_stats [("errors", 1%Z)]; mret []
  end.

(** The key [f"{scope}:{name}"]. *)
Definition did_key (scope name : string) : string := scope +:+ ":" +:+ name.

(** The loop that turns the replica generator into a dict; reading 'scope'
    or 'name' of a record that lacks it raises [KeyError]. *)
Fixpoint replica_dict_of (replicas : list replica) (replica_dict : gmap string replica)
  : result (gmap string replica) :=
  match replicas with
  | [] => Ok replica_dict
  | replica :: rest =>
      scope ← getitem "scope" (r_scope replica);
      name ← getitem "name" (r_name replica);
      replica_dict_of rest (<[did_key scope name := replica]> replica_dict)
  end.

(** The body of the [try] block of [check_replica_locations]. *)
Definition replica_lookup (client : Client) (dids : list did)
  : result (gmap string replica) :=
  replicas ← list_replicas client dids; replica_dict_of replicas ∅.

Definition check_replica_locations (client : Client) (dids : list did)
  : M (gmap string replica) :=
  match dids with
  | [] => mret ∅
  | _ =>
      match replica_lookup client dids with
      | Ok replica_dict => mret replica_dict
      | Raise _ =>
          (* both handlers, for RucioException and for Exception *)
          _ ← update_stats [("errors", Z.of_nat (length dids))]; mret ∅
      end
  end.

(** ** Processing one dataset *)

Definition batch_size : nat := 100.

(** [range(start, stop, step)] for [step > 0]. *)
Definition range (start stop step : nat) : list nat :=
  (λ k, start + k * step)%nat <$> seq 0 ((stop - start + step - 1) / step)%nat.

(** The slice [files[i:i + batch_size]]. *)
Definition slice {A} (l : list A) (i j : nat) : list A := take (j - i) (drop i l).

(** The body of the loop over the files of one batch. *)
Definition check_file (replicas : gmap string replica) (counts : nat * nat)
    (file_info : did) : M (nat * nat) :=
  let '(files_checked, unique_files_found) := counts in
  let file_key := did_key (did_scope file_info) (did_name file_info) in
  match replicas !! file_key with
  | None => mret (files_checked, unique_files_found)
  | Some replica_info =>
      let files_checked := S files_checked in
      self ← get_self;
      unique ← lift (is_unique_at_rse self replica_info);
      if unique : bool then
        _ ← record_unique (did_scope file_info) (did_name file_info);
        mret (files_checked, S unique_files_found)
      else mret (files_checked, unique_files_found)
  end.

(** [[{'scope': f['scope'], 'name': f['name']} for f in batch]] *)
Definition dids_of (batch : list did) : list did :=
  (λ f, DID (did_scope f) (did_name f)) <$> batch.

(** The body of the loop over the batches. *)
Definition process_batch (client : Client) (counts : nat * nat) (batch : list did)
  : M (nat * nat) :=
  let dids := dids_of batch in
  replicas ← check_replica_locations client dids;
  for_each (check_file replicas) counts batch.

Definition batches_of (files : list did) : list (list did) :=
  (λ i, slice files i (i + batch_size)) <$> range 0 (length files) batch_size.

Definition process_dataset (client : Client) (dataset : did) : M (nat * nat) :=
  let scope := did_scope dataset in
  let name := did_name dataset in
  files ← get_files_in_dataset client scope name;
  match files with
  | [] => _ ← update_stats [("skipped", 1%Z)]; mret (0, 0)%nat
  | _ =>
      counts ← for_each (process_batch client) (0, 0)%nat (batches_of files);
      _ ← update_stats [("datasets_processed", 1%Z);
                        ("files_checked", Z.of_nat counts.1);
                        ("unique_files_found", Z.of_nat counts.2)];
      mret counts
  end.

(** ** The run over all datasets *)

(** One task of the pool as [run] consumes it: an exception of the task is
    counted as one error.  The tasks are modelled one after the other, in
    the order of the list. *)
Definition run_task (client : Client) (dataset : did) : M unit := λ self,
  match process_dataset client dataset self with
  | (self', Ok _) => (self', Ok ())
  | (self', Raise _) => update_stats [("errors", 1%Z)] self'
  end.

Definition process_all (client : Client) (datasets : list did) : M unit :=
  for_each (λ _ dataset, run_task client dataset) () datasets.

(** [run] up to the point where the results are saved; an exception of
    [get_datasets_at_rse] ends the run. *)
Definition run (client : Client) : M unit :=
  datasets ← get_datasets_at_rse client;
  match datasets with
  | [] => mret ()
  | _ => process_all client datasets
  end.

(** ** The reports *)

Definition newline : string := String "010"%char "".

Definition scope_le (x y : string * list string) : Prop :=
  String.leb x.1 y.1 = true.
Definition name_le (x y : string) : Prop := String.leb x y = true.

Global Instance scope_le_dec x y : Decision (scope_le x y).
Proof. unfold scope_le. apply _. Defined.
Global Instance name_le_dec x y : Decision (name_le x y).
Proof. unfold name_le. apply _. Defined.

(** The rows written after the header, in the order of the two nested
    loops over the sorted scopes and the sorted names. *)
Definition csv_rows (reg : gmap string (list string)) : list (string * string) :=
  scope_names ← merge_sort scope_le (map_to_list reg);
  (λ name, (scope_names.1, name)) <$> merge_sort name_le scope_names.2.

Definition csv_line (row : string * string) : string :=
  row.1 +:+ "," +:+ row.2 +:+ newline.

(** The text of the .csv file written by [save_results]. *)
Definition csv_report (reg : gmap string (list string)) : string :=
  "scope,name" +:+ newline +:+ foldr (λ row text, csv_line row +:+ text) "" (csv_rows reg).

(** The (scope, name) pairs of the registry that the JSON report carries
    under 'unique_files'. *)
Definition registry_pairs (reg : gmap string (list string)) : gset (string * string) :=
  list_to_set (scope_names ← map_to_list reg;
               (λ name, (scope_names.1, name)) <$> scope_names.2).

(** Modelled from the spec: the reader of the flattened report, which is
    not part of the program.  The text is cut at line feeds, the header line
    is dropped, and every remaining line that has a comma is cut at its
    first comma into a (scope, name) pair. *)
Fixpoint split_on (c : ascii) (s : string) : list string :=
  match s with
  | EmptyString => [""]
  | String a s' =>
      if Ascii.eqb a c then "" :: split_on c s'
      else match split_on c s' with
           | w :: ws => String a w :: ws
           | [] => [String a ""]
           end
  end.

(** Modelled from the spec: cutting one row of the flattened report at its
    first comma; the reader is not part of the program. *)
Fixpoint split_first (c : ascii) (s : string) : option (string * string) :=
  match s with
  | EmptyString => None
  | String a s' =>
      if Ascii.eqb a c then Some ("", s')
      else '(x, y) ← split_first c s'; Some (String a x, y)
  end.

(** Modelled from the spec: the rows read back from the flattened report;
    the reader is not part of the program. *)
Definition parse_csv (text : string) : list (string * string) :=
  match split_on "010"%char text with
  | [] => []
  | _header :: rows => omap (split_first ","%char) rows
  end.

(** Modelled from the spec: the set of pairs read back from the flattened
    report; the reader is not part of the program. *)
Definition parsed_pairs (text : string) : gset (string * string) :=
  list_to_set (parse_csv text).

(** ** Closed forms used to state the properties *)

(** The six counters of the statistics dict. *)
Definition counters : gset string :=
  list_to_set ["datasets_found"; "datasets_processed"; "files_checked";
               "unique_files_found"; "errors"; "skipped"].

Definition wf_stats (self : UniqueReplicaChecker) : Prop :=
  dom (stats self) = counters.

(** The amount [update_stats] adds to the counter [key]. *)
Definition delta_of (key : string) (kwargs : list (string * Z)) : Z :=
  foldr (λ kv acc, if decide (kv.1 = key) then (kv.2 + acc)%Z else acc) 0%Z kwargs.

(** The files [get_files_in_dataset] hands to [process_dataset], and the
    statistics update it makes on the way. *)
Definition listed_files (client : Client) (dataset : did) : list did :=
  match list_files client (did_scope dataset) (did_name dataset) with
  | Ok files => files
  | Raise _ => []
  end.

Definition listing_kwargs (client : Client) (dataset : did) : list (string * Z) :=
  match list_files client (did_scope dataset) (did_name dataset) with
  | Ok _ => []
  | Raise _ => [("errors", 1%Z)]
  end.

(** The dict [check_replica_locations] returns for a batch, and the
    statistics update it makes. *)
Definition batch_replicas (client : Client) (batch : list did) : gmap string replica :=
  match dids_of batch with
  | [] => ∅
  | dids => match replica_lookup client dids with Ok d => d | Raise _ => ∅ end
  end.

Definition batch_kwargs (client : Client) (batch : list did) : list (string * Z) :=
  match dids_of batch with
  | [] => []
  | dids =>
      match replica_lookup client dids with
      | Ok _ => []
      | Raise _ => [("errors", Z.of_nat (length dids))]
      end
  end.

Definition has_replica (replicas : gmap string replica) (f : did) : Prop :=
  is_Some (replicas !! did_key (did_scope f) (did_name f)).

Definition found_unique (target : string) (replicas : gmap string replica) (f : did)
  : Prop :=
  match replicas !! did_key (did_scope f) (did_name f) with
  | Some replica_info => sole_available_copy target replica_info
  | None => False
  end.

Global Instance has_replica_dec replicas f : Decision (has_replica replicas f).
Proof. unfold has_replica. apply _. Defined.
Global Instance found_unique_dec target replicas f :
  Decision (found_unique target replicas f).
Proof. unfold found_unique. destruct (_ !! _); apply _. Defined.

(** The files of a batch that get counted as checked, and those that get
    recorded as unique. *)
Definition checked_in (client : Client) (batch : list did) : list did :=
  filter (has_replica (batch_replicas client batch)) batch.

Definition unique_in (target : string) (client : Client) (batch : list did)
  : list did :=
  filter (found_unique target (batch_replicas client batch)) batch.

(** Every record of a replica dict carries its file identifier. *)
Definition identified (replicas : gmap string replica) : Prop :=
  ∀ key replica_info, replicas !! key = Some replica_info →
    is_Some (r_scope replica_info) ∧ is_Some (r_name replica_info).

(** The files of a dataset counted as checked and recorded as unique, and
    the keyword arguments of all the statistics updates made while the
    dataset is processed, in order. *)
Definition dataset_checked (client : Client) (dataset : did) : list did :=
  batches_of (listed_files client dataset) ≫= checked_in client.

Definition dataset_unique (client : Client) (target : string) (dataset : did)
  : list did :=
  batches_of (listed_files client dataset) ≫= unique_in target client.

Definition dataset_kwargs (client : Client) (target : string) (dataset : did)
  : list (string * Z) :=
  match listed_files client dataset with
  | [] => listing_kwargs client dataset ++ [("skipped", 1%Z)]
  | files =>
      listing_kwargs client dataset
      ++ (batches_of files ≫= batch_kwargs client)
      ++ [("datasets_processed", 1%Z);
          ("files_checked", Z.of_nat (length (dataset_checked client dataset)));
          ("unique_files_found",
           Z.of_nat (length (dataset_unique client target dataset)))]
  end.

(** Appending a list of files to the registry, one after the other. *)
Definition register_all (files : list did) (reg : gmap string (list string))
  : gmap string (list string) :=
  foldl (λ reg f, registry_append (did_scope f) (did_name f) reg) reg files.

(** A registry without a repeated name under any scope. *)
Definition registry_NoDup (reg : gmap string (list string)) : Prop :=
  ∀ scope, NoDup (names_of scope reg).

(** A character occurs in a string. *)
Fixpoint occurs (c : ascii) (s : string) : bool :=
  match s with
  | EmptyString => false
  | String a s' => Ascii.eqb a c || occurs c s'
  end.

(** A registry whose scopes hold neither a comma nor a line feed and whose
    names hold no line feed; a row whose fields can be read back. *)
Definition plain_registry (reg : gmap string (list string)) : Prop :=
  map_Forall (λ scope names,
      occurs ","%char scope = false
      ∧ occurs "010"%char scope = false
      ∧ Forall (λ name, occurs "010"%char name = false) names) reg.

Definition plain_row (row : string * string) : Prop :=
  occurs ","%char row.1 = false
  ∧ occurs "010"%char row.1 = false
  ∧ occurs "010"%char row.2 = false.

(** ** A small catalog used in the examples

    The endpoint X holds the datasets ds, ds2, ds3, empty and gone.  Dataset
    ds has the files A and B, dataset ds2 has the file A too, dataset ds3
    has the file flaky, dataset empty has no file and listing gone raises
    [DataIdentifierNotFound].  File A is AVAILABLE at X only,
    file B at X and at Y; a replica lookup for a batch that holds the file
    flaky raises [RucioException]. *)
Definition replica_A : replica :=
  Replica (Some "s") (Some "A") (Some {[ "X" := ["x/A"] ]})
    (Some {[ "X" := AVAILABLE ]}).

Definition replica_B : replica :=
  Replica (Some "s") (Some "B")
    (Some (<["X" := ["x/B"]]> {[ "Y" := ["y/B"] ]}))
    (Some (<["X" := AVAILABLE]> {[ "Y" := AVAILABLE ]})).

Definition example_client : Client := {|
  list_datasets_per_rse := λ _,
    Ok [DID "s" "ds"; DID "s" "ds2"; DID "s" "ds3"; DID "s" "empty";
        DID "s" "gone"];
  list_files := λ _ name,
    if bool_decide (name = "ds") then Ok [DID "s" "A"; DID "s" "B"]
    else if bool_decide (name = "ds2") then Ok [DID "s" "A"]
    else if bool_decide (name = "ds3") then Ok [DID "s" "flaky"]
    else if bool_decide (name = "empty") then Ok []
    else Raise DataIdentifierNotFound;
  list_replicas := λ dids,
    if bool_decide (DID "s" "flaky" ∈ dids) then Raise RucioException
    else Ok (omap (λ d, if bool_decide (did_name d = "A") then Some replica_A
                        else if bool_decide (did_name d = "B") then Some replica_B
                        else None) dids)
|}.

(** ** The rate limiter's gate *)

(** [a < b] on clock values. *)
Definition Qltb (a b : Q) : bool := negb (Qle_bool b a).

(** The test [now - t < self.time_window] of the two list comprehensions. *)
Definition in_window (now time_window t : Q) : Prop :=
  Qltb (now - t)%Q time_window = true.

Global Instance in_window_dec now time_window t :
  Decision (in_window now time_window t).
Proof. unfold in_window. apply _. Defined.

Definition set_call_times (times : list Q) (self : RateLimiter) : RateLimiter :=
  {| max_calls := max_calls self; time_window := time_window self;
     semaphore := semaphore self; call_times := times |}.

(** [RateLimiter.acquire].  [now] is the first reading of [time.time()]
    and [woke] the reading taken after [time.sleep]; the result is the
    duration handed to [time.sleep], if the call slept.  [call_times[0]] on
    an empty list raises [IndexError]. *)
Definition acquire (now woke : Q) (self : RateLimiter)
  : RateLimiter * result (option Q) :=
  let kept := filter (in_window now (time_window self)) (call_times self) in
  if bool_decide (max_calls self ≤ Z.of_nat (length kept))%Z then
    match kept !! 0 with
    | None => (set_call_times kept self, Raise IndexError)
    | Some oldest =>
        let sleep_time := (time_window self - (now - oldest))%Q in
        if Qltb 0 sleep_time then
          let kept := filter (in_window woke (time_window self)) kept in
          (set_call_times (kept ++ [woke]) self, Ok (Some sleep_time))
        else (set_call_times (kept ++ [now]) self, Ok None)
    end
  else (set_call_times (kept ++ [now]) self, Ok None).

(** ** Keys of the replica dict *)

(** The key under which the loop of [check_replica_locations] files a
    record, if the record has both 'scope' and 'name'. *)
Definition replica_key (replica_info : replica) : option string :=
  scope ← r_scope replica_info;
  name ← r_name replica_info;
  Some (did_key scope name).

Definition filed_under (key : string) (replica_info : replica) : Prop :=
  replica_key replica_info = Some key.

Global Instance filed_under_dec key replica_info :
  Decision (filed_under key replica_info).
Proof. unfold filed_under. apply _. Defined.



(** The files of a batch whose replica lookup failed, and those of a
    dataset. *)
Definition failed_in (client : Client) (batch : list did) : list did :=
  match dids_of batch with
  | [] => []
  | dids => match replica_lookup client dids with Ok _ => [] | Raise _ => batch end
  end.

Definition dataset_failed (client : Client) (dataset : did) : list did :=
  batches_of (listed_files client dataset) ≫= failed_in client.

(** The names of the files of a list that belong to a scope. *)
Definition names_in (scope : string) (files : list did) : list string :=
  did_name <$> filter (λ f, did_scope f = scope) files.



(** The order of the rows of the flattened report: by scope, and by name
    under the same scope. *)
Definition row_le (row1 row2 : string * string) : Prop :=
  (row1.1 ≠ row2.1 ∧ String.leb row1.1 row2.1 = true)
  ∨ (row1.1 = row2.1 ∧ String.leb row1.2 row2.2 = true).


(** * Properties *)

(** Decides a closed proposition by evaluation. *)
Ltac by_compute := apply (bool_decide_unpack _); vm_compute; exact I.

Section evaluator.
Implicit Types (states : gmap string string) (x : string).

Lemma elem_of_available_rses states x :
  x ∈ available_rses states ↔ states !! x = Some AVAILABLE.
Proof.
  unfold available_rses. rewrite list_elem_of_fmap. split.
  - intros [[k v] [-> [Hv Hin]%list_elem_of_filter]]; simpl in *.
    apply elem_of_map_to_list in Hin. by subst v.
  - intros Hx. exists (x, AVAILABLE). split; [done|].
    apply list_elem_of_filter. split; [done|]. by apply elem_of_map_to_list.
Qed.

Lemma NoDup_available_rses states : NoDup (available_rses states).
Proof.
  unfold available_rses.
  eapply (sublist_NoDup _ ((map_to_list states).*1)).
  - apply NoDup_fst_map_to_list.
  - apply fmap_sublist, sublist_filter.
Qed.

Lemma elem_of_available_set states x :
  x ∈ available_set states ↔ states !! x = Some AVAILABLE.
Proof.
  unfold available_set. rewrite elem_of_dom. split.
  - intros [v [Hv Hp]%map_lookup_filter_Some]. simpl in Hp. by subst v.
  - intros Hx. exists AVAILABLE. by apply map_lookup_filter_Some.
Qed.

Lemma available_set_list states :
  available_set states = list_to_set (available_rses states).
Proof.
  apply set_eq. intros x.
  by rewrite elem_of_list_to_set, elem_of_available_set, elem_of_available_rses.
Qed.

Lemma size_available_set states :
  size (available_set states) = length (available_rses states).
Proof.
  rewrite available_set_list. apply size_list_to_set, NoDup_available_rses.
Qed.

Lemma only_available_iff states x :
  length (available_rses states) = 1%nat ∧ available_rses states !! 0%nat = Some x
  ↔ available_set states = {[ x ]}.
Proof.
  rewrite available_set_list. split.
  - intros [Hlen H0]. destruct (available_rses states) as [|y [|??]]; simplify_eq/=.
    apply (right_id_L ∅ (∪)).
  - intros Hset.
    assert (length (available_rses states) = 1%nat) as Hlen.
    { rewrite <-size_available_set, available_set_list, Hset. apply size_singleton. }
    split; [done|].
    destruct (available_rses states) as [|y [|??]]; simplify_eq/=.
    f_equal. apply (elem_of_singleton (C:=gset string)). rewrite <-Hset.
    by apply elem_of_union_l, elem_of_singleton.
Qed.

Lemma is_unique_at_rse_decides self replica_info scope name :
  r_scope replica_info = Some scope → r_name replica_info = Some name →
  is_unique_at_rse self replica_info
  = Ok (bool_decide (sole_available_copy (rse self) replica_info)).
Proof.
  intros Hs Hn. unfold is_unique_at_rse, sole_available_copy. rewrite Hs, Hn. simpl.
  set (rses := default ∅ (r_rses replica_info)).
  set (states := default ∅ (r_states replica_info)).
  case_bool_decide as Hrse.
  { rewrite bool_decide_eq_false_2; [done|].
    intros [Hin _]. apply elem_of_dom in Hin. rewrite Hrse in Hin. by destruct Hin. }
  case_bool_decide as Hst.
  { rewrite bool_decide_eq_false_2; [done|]. by intros (_ & ? & _). }
  destruct (decide (available_set states = {[ rse self ]})) as [Hone|Hmany].
  - pose proof (proj2 (only_available_iff _ _) Hone) as [Hlen H0].
    rewrite (bool_decide_eq_true_2 _ Hlen), (bool_decide_eq_true_2 _ H0). simpl.
    rewrite bool_decide_eq_true_2; [done|].
    split_and!; [|done..]. apply elem_of_dom. by apply not_eq_None_Some.
  - rewrite (bool_decide_eq_false_2 (_ ∧ _)); [|by intros (_ & _ & ?)].
    destruct (bool_decide (length _ = 1%nat)) eqn:Hl;
      destruct (bool_decide (_ !! 0%nat = _)) eqn:H0; simpl; try done.
    apply bool_decide_eq_true in Hl, H0. destruct Hmany.
    by apply only_available_iff.
Qed.
End evaluator.

(** C1: on a replica record that carries its file identifier, the
    evaluator returns true exactly when the target endpoint is in the
    record's locations, its state is AVAILABLE and the set of AVAILABLE
    endpoints is the singleton of the target; it returns false otherwise, in
    particular when the target is absent from the locations, when its state
    is not AVAILABLE and when two or more endpoints are AVAILABLE. *)
Theorem is_unique_at_rse_iff self replica_info scope name :
  r_scope replica_info = Some scope → r_name replica_info = Some name →
  let states := default ∅ (r_states replica_info) in
  (is_unique_at_rse self replica_info = Ok true
   ↔ rse self ∈ dom (default ∅ (r_rses replica_info))
     ∧ states !! rse self = Some AVAILABLE
     ∧ available_set states = {[ rse self ]})
  ∧ (is_unique_at_rse self replica_info = Ok true
     ∨ is_unique_at_rse self replica_info = Ok false)
  ∧ (rse self ∉ dom (default ∅ (r_rses replica_info)) →
     is_unique_at_rse self replica_info = Ok false)
  ∧ (states !! rse self ≠ Some AVAILABLE →
     is_unique_at_rse self replica_info = Ok false)
  ∧ ((2 ≤ size (available_set states))%nat →
     is_unique_at_rse self replica_info = Ok false).
Proof.
  intros Hs Hn states.
  rewrite (is_unique_at_rse_decides _ _ _ _ Hs Hn).
  fold (sole_available_copy (rse self) replica_info).
  assert (∀ P `{Decision P}, ¬ P → Ok (bool_decide P) = Ok false) as Hno.
  { intros P ? HP. by rewrite bool_decide_eq_false_2. }
  split_and!.
  - split; [intros [= H%bool_decide_eq_true]|intros H; rewrite bool_decide_eq_true_2]; done.
  - destruct (bool_decide _); auto.
  - intros Hout. apply Hno. by intros [? _].
  - intros Hst. apply Hno. by intros (_ & ? & _).
  - intros Hsz. apply Hno. intros (_ & _ & Hone). fold states in Hone.
    rewrite Hone, size_singleton in Hsz. lia.
Qed.

(** C1 at the records of the example catalog: file A is unique at X, file
    B, AVAILABLE at X and Y, is not. *)
Lemma is_unique_at_rse_iff_witness :
  is_unique_at_rse (new_checker "X") replica_A = Ok true
  ∧ is_unique_at_rse (new_checker "X") replica_B = Ok false.
Proof.
  split.
  - destruct (is_unique_at_rse_iff (new_checker "X") replica_A "s" "A")
      as [Hiff _]; [reflexivity..|].
    apply Hiff. split_and!; by_compute.
  - destruct (is_unique_at_rse_iff (new_checker "X") replica_B "s" "B")
      as (_ & _ & _ & _ & Hmany); [reflexivity..|].
    apply Hmany. by_compute.
Defined.

(** ** Statistics *)

Section statistics.
Implicit Types (st : gmap string Z) (kwargs : list (string * Z)) (key : string).

Lemma update_stats_dict_cons kv kwargs st :
  update_stats_dict (kv :: kwargs) st
  = update_stats_dict kwargs (update_stats_dict [kv] st).
Proof. reflexivity. Qed.

Lemma update_stats_dict_app kwargs1 kwargs2 st :
  update_stats_dict (kwargs1 ++ kwargs2) st
  = update_stats_dict kwargs2 (update_stats_dict kwargs1 st).
Proof. unfold update_stats_dict. apply foldl_app. Qed.

Lemma update_stats_dict_lookup kwargs st key :
  update_stats_dict kwargs st !! key
  = (λ v, v + delta_of key kwargs)%Z <$> st !! key.
Proof.
  revert st. induction kwargs as [|[k d] kwargs IH]; intros st.
  - simpl. destruct (st !! key); simpl; f_equal; lia.
  - rewrite update_stats_dict_cons, IH. simpl.
    destruct (decide (k = key)) as [->|Hne].
    + destruct (st !! key) as [v|] eqn:Hv; simpl.
      * rewrite lookup_insert_eq. simpl. f_equal. lia.
      * by rewrite Hv.
    + destruct (st !! k); [rewrite lookup_insert_ne|]; done.
Qed.

Lemma dom_update_stats_dict kwargs st :
  dom (update_stats_dict kwargs st) = dom st.
Proof.
  apply set_eq. intros key.
  rewrite !elem_of_dom, update_stats_dict_lookup, fmap_is_Some. done.
Qed.

Lemma delta_of_absent key kwargs : key ∉ kwargs.*1 → delta_of key kwargs = 0%Z.
Proof.
  induction kwargs as [|[k d] kwargs IH]; [done|]. simpl.
  intros Hnot. apply not_elem_of_cons in Hnot as [Hne Hnot].
  rewrite decide_False by done. auto.
Qed.

Lemma delta_of_present key d kwargs :
  NoDup kwargs.*1 → (key, d) ∈ kwargs → delta_of key kwargs = d.
Proof.
  induction kwargs as [|[k d'] kwargs IH]; [by intros _ ?%elem_of_nil|].
  simpl. intros [Hk Hnd]%NoDup_cons [Heq|Hin]%elem_of_cons.
  - simplify_eq. rewrite decide_True by done.
    rewrite delta_of_absent by done. lia.
  - rewrite decide_False; [by apply IH|].
    intros ->. apply Hk. apply list_elem_of_fmap. by exists (key, d).
Qed.

Lemma update_stats_dict_ignored kwargs st :
  (∀ key, key ∈ kwargs.*1 → st !! key = None) → update_stats_dict kwargs st = st.
Proof.
  intros Hnone. apply map_eq. intros key. rewrite update_stats_dict_lookup.
  destruct (st !! key) as [v|] eqn:Hv; [|done]. simpl.
  rewrite delta_of_absent; [f_equal; lia|].
  intros Hin. apply Hnone in Hin. congruence.
Qed.

Lemma stat_update kwargs self key :
  key ∈ dom (stats self) →
  stat key (set_stats (update_stats_dict kwargs (stats self)) self)
  = (stat key self + delta_of key kwargs)%Z.
Proof.
  intros [v Hv]%elem_of_dom. unfold stat. simpl.
  by rewrite update_stats_dict_lookup, Hv.
Qed.
End statistics.

Lemma dom_initial_stats : dom initial_stats = counters.
Proof. by vm_compute. Qed.

Lemma wf_stats_new target : wf_stats (new_checker target).
Proof. apply dom_initial_stats. Qed.

Lemma stat_counter_dom self key :
  wf_stats self → key ∈ counters → key ∈ dom (stats self).
Proof. unfold wf_stats. by intros ->. Qed.


(** C8: [update_stats] changes only the counters that are named by a
    keyword argument and belong to the six counters, each by its delta; it
    never raises, keeps the six counters as the keys of the statistics, and
    leaves the statistics as they were when no keyword names a counter. *)
Theorem update_stats_frame self kwargs :
  wf_stats self → NoDup kwargs.*1 →
  ∃ self', update_stats kwargs self = (self', Ok ())
    ∧ wf_stats self'
    ∧ rse self' = rse self
    ∧ unique_files self' = unique_files self
    ∧ (∀ key delta, key ∈ counters → (key, delta) ∈ kwargs →
         stat key self' = (stat key self + delta)%Z)
    ∧ (∀ key, key ∉ kwargs.*1 → stats self' !! key = stats self !! key)
    ∧ (∀ key, key ∉ counters → stats self' !! key = None)
    ∧ ((∀ key, key ∈ kwargs.*1 → key ∉ counters) → self' = self).
Proof.
  intros Hwf Hnd. eexists. split; [reflexivity|].
  unfold wf_stats in *. simpl. split_and!; try done.
  - by rewrite dom_update_stats_dict.
  - intros key delta Hkey Hin. rewrite stat_update by (by rewrite Hwf).
    by rewrite (delta_of_present key delta).
  - intros key Hnot. rewrite update_stats_dict_lookup, delta_of_absent by done.
    destruct (stats self !! key); simpl; [f_equal; lia|done].
  - intros key Hnot. apply not_elem_of_dom.
    by rewrite dom_update_stats_dict, Hwf.
  - intros Hign. destruct self as [target reg st]. unfold set_stats. simpl in *.
    f_equal. apply update_stats_dict_ignored.
    intros key Hin. apply not_elem_of_dom. rewrite Hwf. by apply Hign.
Qed.

Lemma update_stats_frame_witness :
  ∃ self', update_stats [("errors", 3%Z); ("retries", 1%Z)] (new_checker "X")
           = (self', Ok ())
    ∧ stat "errors" self' = 3%Z ∧ stats self' !! "retries" = None.
Proof.
  destruct (update_stats_frame (new_checker "X") [("errors", 3%Z); ("retries", 1%Z)])
    as (self' & Heq & _ & _ & _ & Hadd & _ & Hnone & _).
  - apply wf_stats_new.
  - by_compute.
  - exists self'. split; [exact Heq|]. split.
    + rewrite (Hadd "errors" 3%Z); [reflexivity|by_compute|by_compute].
    + apply Hnone. by_compute.
Defined.
(** ** The registry *)

Section registry.
Implicit Types (reg : gmap string (list string)) (scope name : string).

Lemma names_of_registry_append scope name reg scope' :
  names_of scope' (registry_append scope name reg)
  = if decide (scope = scope') then names_of scope reg ++ [name]
    else names_of scope' reg.
Proof.
  unfold names_of, registry_append. rewrite lookup_insert.
  by destruct (decide (scope = scope')).
Qed.

Lemma total_unique_insert scope names reg :
  total_unique (<[scope := names]> reg)
  = (length names + total_unique (delete scope reg))%nat.
Proof.
  unfold total_unique. rewrite <-insert_delete_eq.
  apply (map_fold_insert_L (λ _ l n, (length l + n)%nat)).
  - intros. lia.
  - apply lookup_delete_eq.
Qed.

Lemma total_unique_delete scope reg :
  total_unique reg
  = (length (names_of scope reg) + total_unique (delete scope reg))%nat.
Proof.
  unfold names_of. destruct (reg !! scope) as [names|] eqn:Hs; simpl.
  - rewrite <-(insert_id reg scope names) at 1 by done.
    apply total_unique_insert.
  - by rewrite delete_id.
Qed.

Lemma total_unique_registry_append scope name reg :
  total_unique (registry_append scope name reg) = S (total_unique reg).
Proof.
  unfold registry_append. rewrite total_unique_insert.
  rewrite (total_unique_delete scope reg). unfold names_of.
  rewrite length_app. simpl. lia.
Qed.

Lemma total_unique_register_all files reg :
  total_unique (register_all files reg) = (total_unique reg + length files)%nat.
Proof.
  revert reg. induction files as [|f files IH]; intros reg; simpl; [lia|].
  unfold register_all in *. simpl. rewrite IH, total_unique_registry_append. lia.
Qed.

Lemma register_all_app files1 files2 reg :
  register_all (files1 ++ files2) reg = register_all files2 (register_all files1 reg).
Proof. unfold register_all. apply foldl_app. Qed.

Lemma total_unique_empty : total_unique ∅ = 0%nat.
Proof. reflexivity. Qed.
End registry.
(** Unfolds the monad operations in the goal. *)
Ltac step_M :=
  unfold mbind, M_bind, mret, M_ret, get_self, lift, record_unique, update_stats,
    set_stats, set_unique_files; simpl.

(** ** Replica lookups *)

Section lookups.
Context (client : Client).

Lemma identified_empty : identified ∅.
Proof. intros key r. by rewrite lookup_empty. Qed.

Lemma replica_dict_of_identified replicas acc d :
  identified acc → replica_dict_of replicas acc = Ok d → identified d.
Proof.
  revert acc. induction replicas as [|r replicas IH]; intros acc Hacc; simpl.
  - by intros [= <-].
  - destruct (r_scope r) as [scope|] eqn:Hs; [|done].
    destruct (r_name r) as [name|] eqn:Hn; [|done]. simpl.
    apply IH. intros key r'. rewrite lookup_insert.
    destruct (decide _); [|by apply Hacc].
    intros [= <-]. rewrite Hs, Hn. eauto.
Qed.

Lemma batch_replicas_identified batch : identified (batch_replicas client batch).
Proof.
  unfold batch_replicas. destruct (dids_of batch); [apply identified_empty|].
  unfold replica_lookup.
  destruct (list_replicas client _) as [replicas|]; simpl;
    [|apply identified_empty].
  destruct (replica_dict_of replicas ∅) eqn:Hd; [|apply identified_empty].
  by eapply replica_dict_of_identified, Hd.
Qed.

Lemma check_replica_locations_eq batch target reg st :
  check_replica_locations client (dids_of batch) (Checker target reg st)
  = (Checker target reg (update_stats_dict (batch_kwargs client batch) st),
     Ok (batch_replicas client batch)).
Proof.
  unfold check_replica_locations, batch_kwargs, batch_replicas.
  destruct (dids_of batch) as [|d dids]; [done|].
  by destruct (replica_lookup client (d :: dids)).
Qed.
End lookups.

(** ** The loops of [process_dataset] *)

Section loops.
Context (client : Client).


Lemma for_each_cons {A B} (body : B → A → M B) acc x l self :
  for_each body acc (x :: l) self
  = match body acc x self with
    | (self', Ok acc') => for_each body acc' l self'
    | (self', Raise e) => (self', Raise e)
    end.
Proof. reflexivity. Qed.

Lemma bind_M {A B} (m : M A) (k : A → M B) self :
  (m ≫= k) self
  = match m self with
    | (self', Ok a) => k a self'
    | (self', Raise e) => (self', Raise e)
    end.
Proof. reflexivity. Qed.

Lemma is_unique_at_rse_identified replicas key replica_info self :
  identified replicas → replicas !! key = Some replica_info →
  is_unique_at_rse self replica_info
  = Ok (bool_decide (sole_available_copy (rse self) replica_info)).
Proof.
  intros Hid Hkey. destruct (Hid _ _ Hkey) as [[scope Hs] [name Hn]].
  by eapply is_unique_at_rse_decides.
Qed.

Lemma check_file_eq replicas files_checked unique_files_found f target reg st :
  identified replicas →
  check_file replicas (files_checked, unique_files_found) f (Checker target reg st)
  = (Checker target
       (register_all (filter (found_unique target replicas) [f]) reg) st,
     Ok ((files_checked + length (filter (has_replica replicas) [f]))%nat,
         (unique_files_found
          + length (filter (found_unique target replicas) [f]))%nat)).
Proof.
  intros Hid. unfold check_file. rewrite !filter_cons, !filter_nil.
  destruct (replicas !! did_key (did_scope f) (did_name f)) as [r|] eqn:Hr.
  - unfold mbind at 1, M_bind, get_self. unfold mbind at 1, lift.
    rewrite (is_unique_at_rse_identified replicas _ r) by done. simpl.
    rewrite (decide_True (P := has_replica replicas f))
      by (unfold has_replica; rewrite Hr; eauto).
    destruct (decide (sole_available_copy target r)) as [Hu|Hu].
    + rewrite bool_decide_eq_true_2 by done.
      rewrite !(decide_True (P := found_unique target replicas f))
        by (unfold found_unique; by rewrite Hr).
      step_M. do 3 f_equal; lia.
    + rewrite bool_decide_eq_false_2 by done.
      rewrite !(decide_False (P := found_unique target replicas f))
        by (unfold found_unique; by rewrite Hr).
      step_M. do 3 f_equal; lia.
  - rewrite (decide_False (P := has_replica replicas f))
      by (unfold has_replica; rewrite Hr; by intros [? ?]).
    rewrite !(decide_False (P := found_unique target replicas f))
      by (unfold found_unique; rewrite Hr; tauto).
    step_M. do 3 f_equal; lia.
Qed.

Lemma check_files_eq replicas batch files_checked unique_files_found target reg st :
  identified replicas →
  for_each (check_file replicas) (files_checked, unique_files_found) batch
    (Checker target reg st)
  = (Checker target (register_all (filter (found_unique target replicas) batch) reg) st,
     Ok ((files_checked + length (filter (has_replica replicas) batch))%nat,
         (unique_files_found
          + length (filter (found_unique target replicas) batch))%nat)).
Proof.
  intros Hid. revert files_checked unique_files_found reg.
  induction batch as [|f batch IH]; intros files_checked unique_files_found reg.
  - rewrite !filter_nil. step_M. by rewrite !Nat.add_0_r.
  - rewrite for_each_cons, check_file_eq, IH by done.
    change (f :: batch) with ([f] ++ batch).
    rewrite !(filter_app _ [f] batch), register_all_app, !length_app.
    do 3 f_equal; lia.
Qed.

Lemma process_batch_eq batch files_checked unique_files_found target reg st :
  process_batch client (files_checked, unique_files_found) batch
    (Checker target reg st)
  = (Checker target (register_all (unique_in target client batch) reg)
       (update_stats_dict (batch_kwargs client batch) st),
     Ok ((files_checked + length (checked_in client batch))%nat,
         (unique_files_found + length (unique_in target client batch))%nat)).
Proof.
  unfold process_batch. rewrite bind_M, check_replica_locations_eq.
  apply check_files_eq, batch_replicas_identified.
Qed.

Lemma process_batches_eq bs files_checked unique_files_found target reg st :
  for_each (process_batch client) (files_checked, unique_files_found) bs
    (Checker target reg st)
  = (Checker target (register_all (bs ≫= unique_in target client) reg)
       (update_stats_dict (bs ≫= batch_kwargs client) st),
     Ok ((files_checked + length (bs ≫= checked_in client))%nat,
         (unique_files_found + length (bs ≫= unique_in target client))%nat)).
Proof.
  revert files_checked unique_files_found reg st.
  induction bs as [|batch bs IH]; intros files_checked unique_files_found reg st.
  - step_M. by rewrite !Nat.add_0_r.
  - rewrite for_each_cons, process_batch_eq, IH. rewrite !bind_cons.
    rewrite register_all_app, update_stats_dict_app, !length_app.
    do 3 f_equal; lia.
Qed.

Lemma get_files_in_dataset_eq dataset target reg st :
  get_files_in_dataset client (did_scope dataset) (did_name dataset)
    (Checker target reg st)
  = (Checker target reg (update_stats_dict (listing_kwargs client dataset) st),
     Ok (listed_files client dataset)).
Proof.
  unfold get_files_in_dataset, listing_kwargs, listed_files.
  destruct (list_files client _ _) as [files|e]; [done|]. by destruct e.
Qed.

Lemma batches_of_nil : batches_of [] = [].
Proof. reflexivity. Qed.

Lemma process_dataset_eq dataset target reg st :
  process_dataset client dataset (Checker target reg st)
  = (Checker target (register_all (dataset_unique client target dataset) reg)
       (update_stats_dict (dataset_kwargs client target dataset) st),
     Ok (length (dataset_checked client dataset), length (dataset_unique client target dataset))).
Proof.
  unfold process_dataset. rewrite bind_M, get_files_in_dataset_eq.
  unfold dataset_kwargs, dataset_checked, dataset_unique.
  destruct (listed_files client dataset) as [|f files] eqn:Hfiles.
  - rewrite batches_of_nil. step_M. by rewrite update_stats_dict_app.
  - rewrite bind_M, process_batches_eq.
    step_M. by rewrite !update_stats_dict_app.
Qed.
End loops.
(** ** Batches *)

Section batches.
Context {A : Type}.
Implicit Types (l : list A) (n k : nat).

Lemma range_from_zero stop step :
  range 0 stop step = (λ k, k * step)%nat <$> seq 0 ((stop + step - 1) / step).
Proof. unfold range. by rewrite Nat.sub_0_r. Qed.

Lemma slice_take_drop l i n : slice l i (i + n) = take n (drop i l).
Proof. unfold slice. f_equal. lia. Qed.

Lemma concat_slices l n k :
  concat ((λ i, slice l i (i + n)) <$> ((λ j, j * n)%nat <$> seq 0 k))
  = take (k * n) l.
Proof.
  induction k as [|k IH]; [done|].
  rewrite seq_S, !fmap_app, concat_app, IH. simpl.
  rewrite app_nil_r, slice_take_drop, take_take_drop. f_equal. lia.
Qed.
End batches.

Lemma concat_batches_of (files : list did) : concat (batches_of files) = files.
Proof.
  unfold batches_of. rewrite range_from_zero, concat_slices.
  apply take_ge. unfold batch_size.
  pose proof (Nat.div_mod_eq (length files + 100 - 1) 100) as Hdiv.
  pose proof (Nat.mod_upper_bound (length files + 100 - 1) 100). lia.
Qed.

Section counting.
Context (client : Client).

Lemma length_filter_impl {A} (P Q : A → Prop)
    `{!∀ x, Decision (P x), !∀ x, Decision (Q x)} (l : list A) :
  (∀ x, P x → Q x) → length (filter P l) ≤ length (filter Q l).
Proof.
  intros HPQ. induction l as [|x l IH]; [done|].
  rewrite !filter_cons. destruct (decide (P x)) as [HP|HP].
  - rewrite decide_True by auto. simpl. lia.
  - destruct (decide (Q x)); simpl; lia.
Qed.

Lemma found_unique_has_replica target replicas f :
  found_unique target replicas f → has_replica replicas f.
Proof.
  unfold found_unique, has_replica. destruct (_ !! _); [eauto|tauto].
Qed.

Lemma length_unique_in target batch :
  length (unique_in target client batch) ≤ length (checked_in client batch).
Proof. apply length_filter_impl, found_unique_has_replica. Qed.

Lemma length_checked_in batch : length (checked_in client batch) ≤ length batch.
Proof. apply length_filter. Qed.

Lemma length_bind_le {A B} (f g : A → list B) (l : list A) :
  (∀ x, length (f x) ≤ length (g x)) → length (l ≫= f) ≤ length (l ≫= g).
Proof.
  intros Hfg. induction l as [|x l IH]; [done|].
  rewrite !bind_cons, !length_app. specialize (Hfg x). lia.
Qed.

Lemma bind_id_concat {A} (l : list (list A)) : l ≫= id = concat l.
Proof. induction l; [done|]. rewrite bind_cons. simpl. by f_equal. Qed.

Lemma length_dataset_unique target dataset :
  length (dataset_unique client target dataset)
  ≤ length (dataset_checked client dataset).
Proof. apply length_bind_le, length_unique_in. Qed.

Lemma length_dataset_checked dataset :
  length (dataset_checked client dataset) ≤ length (listed_files client dataset).
Proof.
  unfold dataset_checked.
  rewrite <-(concat_batches_of (listed_files client dataset)) at 2.
  rewrite <-bind_id_concat. apply length_bind_le, length_checked_in.
Qed.
End counting.
(** ** Processing a dataset *)

Section datasets.
Context (client : Client).

Lemma delta_of_app key kwargs1 kwargs2 :
  delta_of key (kwargs1 ++ kwargs2)
  = (delta_of key kwargs1 + delta_of key kwargs2)%Z.
Proof.
  induction kwargs1 as [|kv kwargs1 IH]; simpl; [done|].
  destruct (decide (kv.1 = key)); lia.
Qed.

Lemma delta_of_other key key' kwargs :
  Forall (λ kv, kv.1 = key') kwargs → key ≠ key' → delta_of key kwargs = 0%Z.
Proof.
  intros Hall Hne. induction Hall as [|kv kwargs Hkv _ IH]; simpl; [done|].
  rewrite decide_False by congruence. done.
Qed.

Lemma listing_kwargs_errors dataset :
  Forall (λ kv, kv.1 = "errors") (listing_kwargs client dataset).
Proof.
  unfold listing_kwargs. destruct (list_files client _ _); repeat constructor.
Qed.

Lemma batch_kwargs_errors batch :
  Forall (λ kv, kv.1 = "errors") (batch_kwargs client batch).
Proof.
  unfold batch_kwargs. destruct (dids_of batch); [constructor|].
  destruct (replica_lookup client _); repeat constructor.
Qed.

Lemma batches_kwargs_errors bs :
  Forall (λ kv, kv.1 = "errors") (bs ≫= batch_kwargs client).
Proof.
  induction bs as [|batch bs IH]; [constructor|].
  rewrite bind_cons. apply Forall_app. split; [apply batch_kwargs_errors|done].
Qed.

Lemma process_dataset_run dataset self :
  process_dataset client dataset self
  = (Checker (rse self)
       (register_all (dataset_unique client (rse self) dataset) (unique_files self))
       (update_stats_dict (dataset_kwargs client (rse self) dataset) (stats self)),
     Ok (length (dataset_checked client dataset),
         length (dataset_unique client (rse self) dataset))).
Proof. destruct self. apply process_dataset_eq. Qed.

Lemma dataset_nil dataset :
  listed_files client dataset = [] →
  dataset_checked client dataset = [] ∧ ∀ target, dataset_unique client target dataset = [].
Proof. unfold dataset_checked, dataset_unique. by intros ->. Qed.

(** What one dataset adds to each counter. *)
Lemma delta_of_dataset_kwargs target dataset key :
  key ≠ "errors" →
  delta_of key (dataset_kwargs client target dataset)
  = match listed_files client dataset with
    | [] => if decide (key = "skipped") then 1%Z else 0%Z
    | _ =>
        if decide (key = "datasets_processed") then 1%Z
        else if decide (key = "files_checked")
             then Z.of_nat (length (dataset_checked client dataset))
        else if decide (key = "unique_files_found")
             then Z.of_nat (length (dataset_unique client target dataset))
        else 0%Z
    end.
Proof.
  intros Hne. unfold dataset_kwargs.
  destruct (listed_files client dataset) as [|f files] eqn:Hfiles.
  - rewrite delta_of_app, (delta_of_other key "errors")
      by auto using listing_kwargs_errors.
    simpl. destruct (decide ("skipped" = key)) as [<-|]; [done|].
    rewrite decide_False by congruence. done.
  - rewrite !delta_of_app, !(delta_of_other key "errors")
      by auto using listing_kwargs_errors, batches_kwargs_errors.
    simpl.
    repeat (match goal with
            | |- context [decide (?a = key)] =>
                destruct (decide (a = key)) as [<-|]
            end; simpl; try done);
      repeat (rewrite decide_False by congruence); lia.
Qed.

Lemma wf_stats_process_dataset dataset self :
  wf_stats self → wf_stats (process_dataset client dataset self).1.
Proof.
  unfold wf_stats. rewrite process_dataset_run. simpl.
  by rewrite dom_update_stats_dict.
Qed.

Lemma stat_process_dataset dataset self key :
  wf_stats self → key ∈ counters →
  stat key (process_dataset client dataset self).1
  = (stat key self + delta_of key (dataset_kwargs client (rse self) dataset))%Z.
Proof.
  intros Hwf Hkey. rewrite process_dataset_run. simpl.
  rewrite <-(stat_update _ self) by (by rewrite Hwf). done.
Qed.
End datasets.
(** ** The claims about processing *)

Lemma counter_elem (key : string) :
  key ∈ ["datasets_found"; "datasets_processed"; "files_checked";
         "unique_files_found"; "errors"; "skipped"] → key ∈ counters.
Proof. intros Hin. unfold counters. by apply elem_of_list_to_set. Qed.

Ltac solve_counter := apply counter_elem; repeat constructor.

Lemma found_unique_iff target replicas f :
  identified replicas →
  found_unique target replicas f
  ↔ ∃ replica_info,
      replicas !! did_key (did_scope f) (did_name f) = Some replica_info
      ∧ is_unique_at_rse (new_checker target) replica_info = Ok true.
Proof.
  intros Hid. unfold found_unique.
  destruct (replicas !! did_key (did_scope f) (did_name f)) as [r|] eqn:Hr.
  - pose proof (is_unique_at_rse_identified replicas _ r (new_checker target) Hid Hr)
      as Heq. simpl in Heq. split.
    + intros Hu. exists r. split; [done|]. by rewrite Heq, bool_decide_eq_true_2.
    + intros (r' & [= <-] & Hu). rewrite Heq in Hu.
      injection Hu as Hu. by apply bool_decide_eq_true in Hu.
  - split; [tauto|]. by intros (? & ? & _).
Qed.

Lemma run_task_eq client dataset self :
  run_task client dataset self = ((process_dataset client dataset self).1, Ok ()).
Proof. unfold run_task. by rewrite process_dataset_run. Qed.

Lemma process_all_cons client dataset datasets self :
  process_all client (dataset :: datasets) self
  = process_all client datasets (process_dataset client dataset self).1.
Proof.
  unfold process_all. by rewrite for_each_cons, run_task_eq.
Qed.

Lemma process_all_invariant client datasets self :
  wf_stats self →
  stat "unique_files_found" self = Z.of_nat (total_unique (unique_files self)) →
  ∃ self', process_all client datasets self = (self', Ok ())
    ∧ wf_stats self'
    ∧ stat "unique_files_found" self' = Z.of_nat (total_unique (unique_files self')).
Proof.
  revert self. induction datasets as [|dataset datasets IH]; intros self Hwf Heq.
  - by exists self.
  - rewrite process_all_cons. apply IH.
    + by apply wf_stats_process_dataset.
    + rewrite stat_process_dataset by (done || solve_counter).
      rewrite delta_of_dataset_kwargs by done.
      rewrite process_dataset_run. simpl. rewrite total_unique_register_all, Heq.
      destruct (listed_files client dataset) eqn:Hfiles; simpl; [|lia].
      destruct (dataset_nil client dataset Hfiles) as [_ ->]. simpl. lia.
Qed.

Lemma get_datasets_at_rse_eq client self :
  get_datasets_at_rse client self
  = match list_datasets_per_rse client (rse self) with
    | Ok datasets =>
        (set_stats
           (update_stats_dict [("datasets_found", Z.of_nat (length datasets))]
              (stats self)) self,
         Ok datasets)
    | Raise e => (self, Raise e)
    end.
Proof.
  unfold get_datasets_at_rse. rewrite bind_M. unfold get_self.
  by destruct (list_datasets_per_rse client _).
Qed.

Lemma run_invariant client target :
  stat "unique_files_found" (run client (new_checker target)).1
  = Z.of_nat (total_unique (unique_files (run client (new_checker target)).1)).
Proof.
  unfold run. rewrite bind_M, get_datasets_at_rse_eq.
  destruct (list_datasets_per_rse client _) as [datasets|e]; [|done].
  set (found := set_stats _ _).
  assert (wf_stats found) as Hwf.
  { unfold wf_stats, found, set_stats. cbn [stats].
    rewrite dom_update_stats_dict. apply dom_initial_stats. }
  assert (stat "unique_files_found" found
          = Z.of_nat (total_unique (unique_files found))) as Heq.
  { unfold found.
    rewrite stat_update by (apply stat_counter_dom; [apply wf_stats_new|solve_counter]).
    done. }
  destruct datasets as [|dataset datasets]; [done|].
  by destruct (process_all_invariant client (dataset :: datasets) found Hwf Heq)
    as (self' & -> & _ & ?).
Qed.

(** C2: a file is appended to the registry exactly when the uniqueness
    evaluator returned true for its replica record; what a dataset adds to
    unique_files_found is the number of entries it appended; after a run the
    counter equals the number of entries of the registry. *)
Theorem unique_count_matches_registry (client : Client) :
  (∀ replicas counts f self replica_info,
     identified replicas →
     replicas !! did_key (did_scope f) (did_name f) = Some replica_info →
     ∃ unique : bool,
       is_unique_at_rse self replica_info = Ok unique
       ∧ check_file replicas counts f self
         = (if unique
            then set_unique_files
                   (registry_append (did_scope f) (did_name f) (unique_files self)) self
            else self,
            Ok (S counts.1, if unique then S counts.2 else counts.2)))
  ∧ (∀ dataset self, wf_stats self →
     ∃ self' files_checked unique_files_found,
       process_dataset client dataset self
       = (self', Ok (files_checked, unique_files_found))
       ∧ unique_files self'
         = register_all (dataset_unique client (rse self) dataset) (unique_files self)
       ∧ (∀ batch f, f ∈ unique_in (rse self) client batch
            ↔ f ∈ batch
              ∧ ∃ replica_info,
                  batch_replicas client batch !! did_key (did_scope f) (did_name f)
                  = Some replica_info
                  ∧ is_unique_at_rse self replica_info = Ok true)
       ∧ total_unique (unique_files self')
         = total_unique (unique_files self) + unique_files_found
       ∧ stat "unique_files_found" self'
         = (stat "unique_files_found" self + Z.of_nat unique_files_found)%Z)
  ∧ (∀ target datasets,
     ∃ self', process_all client datasets (new_checker target) = (self', Ok ())
       ∧ stat "unique_files_found" self'
         = Z.of_nat (total_unique (unique_files self')))
  ∧ (∀ target,
       stat "unique_files_found" (run client (new_checker target)).1
       = Z.of_nat (total_unique (unique_files (run client (new_checker target)).1))).
Proof.
  split_and!; [| | |apply run_invariant].
  - intros replicas [fc uf] f self r Hid Hr.
    exists (bool_decide (sole_available_copy (rse self) r)).
    rewrite (is_unique_at_rse_identified replicas _ r) by done.
    split; [done|]. unfold check_file. rewrite Hr. rewrite !bind_M.
    unfold get_self, lift.
    rewrite (is_unique_at_rse_identified replicas _ r) by done.
    by destruct (bool_decide _).
  - intros dataset self Hwf. eexists _, _, _.
    split; [apply process_dataset_run|]. simpl. split_and!.
    + done.
    + intros batch f. unfold unique_in. rewrite list_elem_of_filter.
      rewrite (found_unique_iff (rse self))
        by apply batch_replicas_identified.
      split; intros [H1 H2]; (split; [done|]); exact H1 || exact H2.
    + apply total_unique_register_all.
    + assert ("unique_files_found" ∈ dom (stats self)) as [v Hv]%elem_of_dom
        by (unfold wf_stats in Hwf; rewrite Hwf; solve_counter).
      unfold stat. simpl. rewrite update_stats_dict_lookup, Hv. simpl.
      rewrite delta_of_dataset_kwargs by done.
      destruct (listed_files client dataset) eqn:Hfiles; simpl; [|done].
      destruct (dataset_nil client dataset Hfiles) as [_ ->]. done.
  - intros target datasets.
    destruct (process_all_invariant client datasets (new_checker target))
      as (self' & Heq & _ & Hcount); [apply wf_stats_new|done|]. eauto.
Qed.
(** C2 at the example catalog: a run over its five datasets ends with
    unique_files_found equal to the number of entries of the registry. *)
Lemma unique_count_matches_registry_witness :
  (∃ self' files_checked unique_files_found,
     process_dataset example_client (DID "s" "ds") (new_checker "X")
     = (self', Ok (files_checked, unique_files_found))
     ∧ total_unique (unique_files self') = unique_files_found
     ∧ stat "unique_files_found" self' = Z.of_nat unique_files_found)
  ∧ ∃ self',
      process_all example_client
        [DID "s" "ds"; DID "s" "ds2"; DID "s" "ds3"; DID "s" "empty"; DID "s" "gone"]
        (new_checker "X") = (self', Ok ())
      ∧ stat "unique_files_found" self' = Z.of_nat (total_unique (unique_files self')).
Proof.
  destruct (unique_count_matches_registry example_client)
    as (_ & Hdataset & Hrun & _).
  split; [|apply Hrun].
  destruct (Hdataset (DID "s" "ds") (new_checker "X") (wf_stats_new "X"))
    as (self' & fc & uf & Heq & _ & _ & Htotal & Hstat).
  exists self', fc, uf. split; [exact Heq|]. split; [exact Htotal|exact Hstat].
Defined.

(** C10 as amended: [process_dataset] returns a pair
    (files_checked, unique_files_found) with
    0 ≤ unique_files_found ≤ files_checked ≤ number of files listed, and adds
    these amounts to the global counters; datasets_processed grows by 1 when
    the listing is not empty, and stays the same (with skipped growing by 1)
    when the listing is empty or failed. *)
Theorem process_dataset_counts (client : Client) (dataset : did)
    (self : UniqueReplicaChecker) :
  wf_stats self →
  ∃ self' files_checked unique_files_found,
    process_dataset client dataset self
    = (self', Ok (files_checked, unique_files_found))
    ∧ 0 ≤ unique_files_found
    ∧ unique_files_found ≤ files_checked
    ∧ files_checked ≤ length (listed_files client dataset)
    ∧ stat "files_checked" self'
      = (stat "files_checked" self + Z.of_nat files_checked)%Z
    ∧ stat "unique_files_found" self'
      = (stat "unique_files_found" self + Z.of_nat unique_files_found)%Z
    ∧ stat "datasets_processed" self'
      = (stat "datasets_processed" self
         + match listed_files client dataset with [] => 0 | _ => 1 end)%Z
    ∧ stat "skipped" self'
      = (stat "skipped" self
         + match listed_files client dataset with [] => 1 | _ => 0 end)%Z.
Proof.
  intros Hwf.
  pose proof (stat_process_dataset client dataset self) as Hstat.
  rewrite process_dataset_run in *. simpl in Hstat.
  eexists _, _, _. split; [reflexivity|].
  split_and!.
  - lia.
  - apply length_dataset_unique.
  - apply length_dataset_checked.
  - rewrite Hstat, delta_of_dataset_kwargs by (done || solve_counter).
    destruct (listed_files client dataset) eqn:Hfiles; simpl; [|done].
    by destruct (dataset_nil client dataset Hfiles) as [-> _].
  - rewrite Hstat, delta_of_dataset_kwargs by (done || solve_counter).
    destruct (listed_files client dataset) eqn:Hfiles; simpl; [|done].
    by destruct (dataset_nil client dataset Hfiles) as [_ ->].
  - rewrite Hstat, delta_of_dataset_kwargs by (done || solve_counter).
    by destruct (listed_files client dataset).
  - rewrite Hstat, delta_of_dataset_kwargs by (done || solve_counter).
    by destruct (listed_files client dataset).
Qed.

Lemma process_dataset_counts_witness :
  ∃ self' files_checked unique_files_found,
    process_dataset example_client (DID "s" "ds") (new_checker "X")
    = (self', Ok (files_checked, unique_files_found))
    ∧ unique_files_found ≤ files_checked
    ∧ stat "datasets_processed" self' = 1%Z.
Proof.
  destruct (process_dataset_counts example_client (DID "s" "ds") (new_checker "X"))
    as (self' & fc & uf & Heq & _ & Hle & _ & _ & _ & Hdp & _).
  - apply wf_stats_new.
  - exists self', fc, uf. split; [exact Heq|]. split; [exact Hle|]. exact Hdp.
Defined.

(** C10 as stated fails on a dataset without files: datasets_processed is
    not incremented. *)
Lemma process_dataset_empty_not_processed :
  (process_dataset example_client (DID "s" "empty") (new_checker "X")).2 = Ok (0, 0)
  ∧ stat "datasets_processed"
      (process_dataset example_client (DID "s" "empty") (new_checker "X")).1
    ≠ (stat "datasets_processed" (new_checker "X") + 1)%Z.
Proof. split; [by vm_compute|]. by vm_compute. Qed.

(** C3 as amended: a dataset whose listing is empty or raises records one
    skipped event, returns (0, 0) and adds nothing to the registry nor to
    files_checked, unique_files_found and datasets_processed; the errors
    counter is unchanged when the listing is empty and grows by exactly 1
    when the listing raised, [DataIdentifierNotFound] included. *)
Theorem process_dataset_skipped (client : Client) (dataset : did)
    (self : UniqueReplicaChecker) :
  wf_stats self →
  (list_files client (did_scope dataset) (did_name dataset) = Ok []
   ∨ ∃ e, list_files client (did_scope dataset) (did_name dataset) = Raise e) →
  ∃ self',
    process_dataset client dataset self = (self', Ok (0, 0))
    ∧ unique_files self' = unique_files self
    ∧ stat "skipped" self' = (stat "skipped" self + 1)%Z
    ∧ stat "files_checked" self' = stat "files_checked" self
    ∧ stat "unique_files_found" self' = stat "unique_files_found" self
    ∧ stat "datasets_processed" self' = stat "datasets_processed" self
    ∧ stat "datasets_found" self' = stat "datasets_found" self
    ∧ stat "errors" self'
      = (stat "errors" self
         + match list_files client (did_scope dataset) (did_name dataset) with
           | Ok _ => 0 | Raise _ => 1 end)%Z.
Proof.
  intros Hwf Hlist.
  assert (listed_files client dataset = []) as Hfiles.
  { unfold listed_files. by destruct Hlist as [->|[e ->]]. }
  pose proof (stat_process_dataset client dataset self) as Hstat.
  destruct (dataset_nil client dataset Hfiles) as [Hc Hu].
  rewrite process_dataset_run in Hstat. simpl in Hstat.
  rewrite process_dataset_run, Hc.
  eexists. split; [by rewrite Hu|]. unfold stat in *. simpl in *.
  assert (∀ key, key ∈ counters → key ≠ "errors" →
            delta_of key (dataset_kwargs client (rse self) dataset)
            = if decide (key = "skipped") then 1%Z else 0%Z) as Hdelta.
  { intros key _ Hne. rewrite delta_of_dataset_kwargs by done. by rewrite Hfiles. }
  split_and!;
    [done|rewrite Hstat, ?Hdelta by (done || solve_counter); simpl; lia..|].
  rewrite Hstat by (done || solve_counter). f_equal.
  unfold dataset_kwargs, listing_kwargs. rewrite Hfiles.
  by destruct (list_files client _ _).
Qed.

Lemma process_dataset_skipped_witness :
  ∃ self',
    process_dataset example_client (DID "s" "gone") (new_checker "X")
    = (self', Ok (0, 0))
    ∧ stat "skipped" self' = 1%Z ∧ stat "errors" self' = 1%Z.
Proof.
  destruct (process_dataset_skipped example_client (DID "s" "gone") (new_checker "X"))
    as (self' & Heq & _ & Hsk & _ & _ & _ & _ & Herr).
  - apply wf_stats_new.
  - right. exists DataIdentifierNotFound. reflexivity.
  - exists self'. split; [exact Heq|]. split; [exact Hsk|exact Herr].
Defined.

(** C3 as stated fails when the listing raises [DataIdentifierNotFound]:
    the errors counter grows by 1. *)
Lemma process_dataset_not_found_counts_error :
  list_files example_client "s" "gone" = Raise DataIdentifierNotFound
  ∧ (process_dataset example_client (DID "s" "gone") (new_checker "X")).2 = Ok (0, 0)
  ∧ stat "errors" (new_checker "X") = 0%Z
  ∧ stat "errors" (process_dataset example_client (DID "s" "gone") (new_checker "X")).1
    = 1%Z.
Proof. by vm_compute. Qed.
(** ** The rate limiter *)

(** C4 as amended: the constructor validates neither argument itself; it
    fails, with the [ValueError] of the semaphore, exactly when
    max_calls < 0, and in every other case, max_calls = 0 and
    time_window ≤ 0 included, returns a limiter holding the two values. *)
Theorem RateLimiter_init_result (N : Z) (T : Q) :
  RateLimiter_init N T
  = if bool_decide (N < 0)%Z then Raise ValueError
    else Ok {| max_calls := N; time_window := T; semaphore := N; call_times := [] |}.
Proof.
  unfold RateLimiter_init, Semaphore. by case_bool_decide.
Qed.

(** C4 as stated fails: max_calls = 0 and time_window ≤ 0 are accepted. *)
Lemma RateLimiter_init_accepts_nonpositive :
  RateLimiter_init 0 1
  = Ok {| max_calls := 0; time_window := 1; semaphore := 0; call_times := [] |}
  ∧ RateLimiter_init 10 0
    = Ok {| max_calls := 10; time_window := 0; semaphore := 10; call_times := [] |}
  ∧ RateLimiter_init 10 (-1)
    = Ok {| max_calls := 10; time_window := -1; semaphore := 10; call_times := [] |}.
Proof. by vm_compute. Qed.

(** ** Duplicates in the registry *)

(** C5 as amended: the registry keeps a list of names per scope; every
    insertion appends one entry at the end of the list of its scope and
    leaves the other scopes alone, so inserting the same (scope, name) pair
    twice leaves two entries for it. *)
Theorem registry_append_appends (scope name : string)
    (reg : gmap string (list string)) :
  names_of scope (registry_append scope name reg) = names_of scope reg ++ [name]
  ∧ (∀ scope', scope' ≠ scope →
       names_of scope' (registry_append scope name reg) = names_of scope' reg)
  ∧ total_unique (registry_append scope name reg) = S (total_unique reg)
  ∧ names_of scope (registry_append scope name (registry_append scope name reg))
    = names_of scope reg ++ [name; name]
  ∧ total_unique (registry_append scope name (registry_append scope name reg))
    = S (S (total_unique reg)).
Proof.
  split_and!.
  - rewrite names_of_registry_append. by rewrite decide_True.
  - intros scope' Hne. rewrite names_of_registry_append. by rewrite decide_False.
  - apply total_unique_registry_append.
  - rewrite !names_of_registry_append, !decide_True by done.
    by rewrite <-app_assoc.
  - by rewrite !total_unique_registry_append.
Qed.

Lemma registry_append_appends_witness :
  names_of "s" (registry_append "s" "B" (registry_append "t" "A" ∅)) = ["B"]
  ∧ names_of "t" (registry_append "s" "B" (registry_append "t" "A" ∅)) = ["A"].
Proof.
  destruct (registry_append_appends "s" "B" (registry_append "t" "A" ∅))
    as (Hs & Hother & _).
  split; [exact Hs|]. apply (Hother "t"). discriminate.
Defined.

(** C5 as stated fails: inserting a pair twice is not idempotent, and a run
    over two datasets that share a unique file leaves that file twice under
    its scope. *)
Lemma registry_insert_not_idempotent :
  registry_append "s" "A" (registry_append "s" "A" ∅) ≠ registry_append "s" "A" ∅
  ∧ names_of "s" (registry_append "s" "A" (registry_append "s" "A" ∅)) = ["A"; "A"]
  ∧ names_of "s"
      (unique_files
         (process_all example_client [DID "s" "ds"; DID "s" "ds2"] (new_checker "X")).1)
    = ["A"; "A"]
  ∧ ¬ registry_NoDup
        (unique_files
           (process_all example_client [DID "s" "ds"; DID "s" "ds2"]
              (new_checker "X")).1).
Proof.
  split_and!.
  - intros Heq. apply (f_equal (names_of "s")) in Heq. vm_compute in Heq. discriminate.
  - by vm_compute.
  - by vm_compute.
  - intros Hnd. specialize (Hnd "s").
    assert (names_of "s"
      (unique_files
         (process_all example_client [DID "s" "ds"; DID "s" "ds2"] (new_checker "X")).1)
      = ["A"; "A"]) as Heq by (by vm_compute).
    rewrite Heq in Hnd. apply NoDup_cons in Hnd as [Hnot _].
    apply Hnot. constructor.
Qed.

(** ** The uniqueness evaluator on incomplete records *)

Lemma is_unique_at_rse_no_scope self replica_info name :
  r_name replica_info = Some name → r_scope replica_info = None →
  is_unique_at_rse self replica_info
  = if bool_decide (sole_available_copy (rse self) replica_info)
    then Raise (KeyError "scope") else Ok false.
Proof.
  intros Hname Hscope.
  pose proof (is_unique_at_rse_decides self
                (Replica (Some "") (r_name replica_info) (r_rses replica_info)
                   (r_states replica_info)) "" name eq_refl Hname) as Hfull.
  change (sole_available_copy (rse self) (Replica _ _ _ _))
    with (sole_available_copy (rse self) replica_info) in Hfull.
  revert Hfull. unfold is_unique_at_rse. simpl. rewrite Hscope, Hname.
  destruct (bool_decide (sole_available_copy (rse self) replica_info));
    repeat case_bool_decide; simpl; congruence.
Qed.

(** C9 as amended: on a record that has a 'name', the evaluator returns
    false, and does not raise, when 'rses' or 'states' is missing or empty
    and when the target is in 'rses' but not in 'states'.  It is total, with
    a boolean result, on every record that has a 'scope' too.  On a record
    without 'scope' it returns false when the target does not hold the only
    AVAILABLE copy and raises [KeyError] for 'scope' when it does. *)
Theorem is_unique_at_rse_defensive (self : UniqueReplicaChecker)
    (replica_info : replica) (name : string) :
  r_name replica_info = Some name →
  ((r_rses replica_info = None ∨ r_rses replica_info = Some ∅
    ∨ r_states replica_info = None ∨ r_states replica_info = Some ∅
    ∨ (rse self ∈ dom (default ∅ (r_rses replica_info))
       ∧ default ∅ (r_states replica_info) !! rse self = None)) →
   is_unique_at_rse self replica_info = Ok false)
  ∧ (is_Some (r_scope replica_info) →
     is_unique_at_rse self replica_info = Ok true
     ∨ is_unique_at_rse self replica_info = Ok false)
  ∧ (r_scope replica_info = None →
     (¬ sole_available_copy (rse self) replica_info →
      is_unique_at_rse self replica_info = Ok false)
     ∧ (sole_available_copy (rse self) replica_info →
        is_unique_at_rse self replica_info = Raise (KeyError "scope"))).
Proof.
  intros Hname. split_and!.
  - intros Hcases. unfold is_unique_at_rse. rewrite Hname.
    assert (default ∅ (r_rses replica_info) !! rse self = None
            ∨ default ∅ (r_states replica_info) !! rse self = None) as [Hr|Hs].
    { destruct Hcases as [->|[->|[->|[->|[_ ?]]]]]; simpl;
        [left|left|right|right|right]; done || apply lookup_empty. }
    + by rewrite bool_decide_eq_true_2.
    + case_bool_decide; [done|]. rewrite bool_decide_eq_true_2; [done|].
      by rewrite Hs.
  - intros [scope Hscope].
    rewrite (is_unique_at_rse_decides _ _ scope name) by done.
    destruct (bool_decide _); auto.
  - intros Hscope. rewrite (is_unique_at_rse_no_scope _ _ name) by done. split.
    + intros Hnot. by rewrite bool_decide_eq_false_2.
    + intros Hsole. by rewrite bool_decide_eq_true_2.
Qed.

Lemma is_unique_at_rse_defensive_witness :
  is_unique_at_rse (new_checker "X")
    (Replica None (Some "A") None (Some {[ "X" := AVAILABLE ]})) = Ok false
  ∧ is_unique_at_rse (new_checker "X")
      (Replica None (Some "A") (Some {[ "X" := ["x/A"] ]}) None) = Ok false
  ∧ is_unique_at_rse (new_checker "X")
      (Replica None (Some "A") (Some {[ "X" := ["x/A"] ]})
         (Some {[ "Y" := AVAILABLE ]})) = Ok false
  ∧ (is_unique_at_rse (new_checker "X") replica_B = Ok true
     ∨ is_unique_at_rse (new_checker "X") replica_B = Ok false).
Proof.
  split_and!.
  - apply (proj1 (is_unique_at_rse_defensive (new_checker "X")
             (Replica None (Some "A") None (Some {[ "X" := AVAILABLE ]})) "A" eq_refl)).
    by left.
  - apply (proj1 (is_unique_at_rse_defensive (new_checker "X")
             (Replica None (Some "A") (Some {[ "X" := ["x/A"] ]}) None) "A" eq_refl)).
    right; right; by left.
  - apply (proj1 (is_unique_at_rse_defensive (new_checker "X")
             (Replica None (Some "A") (Some {[ "X" := ["x/A"] ]})
                (Some {[ "Y" := AVAILABLE ]})) "A" eq_refl)).
    do 4 right. split; [|reflexivity].
    apply elem_of_dom. eexists. reflexivity.
  - apply (proj1 (proj2 (is_unique_at_rse_defensive (new_checker "X") replica_B "B"
                          eq_refl))).
    by eexists.
Defined.

(** C9 as stated fails: a record with a 'name' but no 'scope', whose only
    AVAILABLE copy is at the target, makes the evaluator raise [KeyError]
    for 'scope' instead of returning a boolean. *)
Lemma is_unique_at_rse_not_total :
  r_name (Replica None (Some "A") (Some {[ "X" := ["x/A"] ]})
            (Some {[ "X" := AVAILABLE ]})) = Some "A"
  ∧ is_unique_at_rse (new_checker "X")
      (Replica None (Some "A") (Some {[ "X" := ["x/A"] ]})
         (Some {[ "X" := AVAILABLE ]})) = Raise (KeyError "scope")
  ∧ ∀ b : bool,
      is_unique_at_rse (new_checker "X")
        (Replica None (Some "A") (Some {[ "X" := ["x/A"] ]})
           (Some {[ "X" := AVAILABLE ]})) ≠ Ok b.
Proof.
  split; [reflexivity|]. split; [by vm_compute|].
  intros b Hb. vm_compute in Hb. discriminate.
Qed.

(** ** A failed replica lookup *)

Section failed_batch.
Context (client : Client).

Lemma length_dids_of batch : length (dids_of batch) = length batch.
Proof. apply length_fmap. Qed.


Lemma filter_False {A} (P : A → Prop) `{!∀ x, Decision (P x)} (l : list A) :
  (∀ x, ¬ P x) → filter P l = [].
Proof.
  intros HP. induction l as [|x l IH]; [done|].
  rewrite filter_cons, decide_False by done. done.
Qed.

End failed_batch.



(** ** The flattened report *)

Section strings.
Implicit Types (c a : ascii) (s t : string).

Lemma app_String a s t : String a s +:+ t = String a (s +:+ t).
Proof. reflexivity. Qed.

Lemma app_empty t : "" +:+ t = t.
Proof. reflexivity. Qed.

Lemma string_app_assoc s t u : (s +:+ t) +:+ u = s +:+ (t +:+ u).
Proof. induction s as [|a s IH]; [done|]. by rewrite !app_String, IH. Qed.

Lemma split_on_cons c s : ∃ w ws, split_on c s = w :: ws.
Proof.
  induction s as [|a s (w & ws & IH)]; simpl; [by eauto|].
  destruct (Ascii.eqb a c); [by eauto|]. rewrite IH. eauto.
Qed.

Lemma split_on_app c s t :
  occurs c s = false → split_on c (s +:+ String c t) = s :: split_on c t.
Proof.
  induction s as [|a s IH]; intros Hocc.
  - rewrite app_empty. simpl. by rewrite Ascii.eqb_refl.
  - simpl in Hocc. apply orb_false_iff in Hocc as [Ha Hs].
    rewrite app_String. simpl. by rewrite Ha, IH.
Qed.

Lemma split_first_app c s t :
  occurs c s = false → split_first c (s +:+ String c t) = Some (s, t).
Proof.
  induction s as [|a s IH]; intros Hocc.
  - rewrite app_empty. simpl. by rewrite Ascii.eqb_refl.
  - simpl in Hocc. apply orb_false_iff in Hocc as [Ha Hs].
    rewrite app_String. simpl. by rewrite Ha, IH.
Qed.

Lemma occurs_app c s t : occurs c (s +:+ t) = occurs c s || occurs c t.
Proof.
  induction s as [|a s IH]; [done|].
  rewrite app_String. simpl. by rewrite IH, orb_assoc.
Qed.
End strings.

Section report.
Implicit Types (reg : gmap string (list string)) (rows : list (string * string)).

Lemma csv_line_eq row text :
  csv_line row +:+ text = (row.1 +:+ "," +:+ row.2) +:+ String "010"%char text.
Proof. unfold csv_line, newline. by rewrite !string_app_assoc. Qed.

Lemma split_lines_rows rows :
  Forall plain_row rows →
  split_on "010"%char (foldr (λ row text, csv_line row +:+ text) "" rows)
  = ((λ row, row.1 +:+ "," +:+ row.2) <$> rows) ++ [""].
Proof.
  induction 1 as [|row rows (Hc & Hs & Hn) _ IH]; [done|].
  simpl foldr. rewrite csv_line_eq, split_on_app, IH; [done|].
  rewrite !occurs_app, Hs, Hn. done.
Qed.

Lemma omap_split_rows rows :
  Forall plain_row rows →
  omap (split_first ","%char) (((λ row, row.1 +:+ "," +:+ row.2) <$> rows) ++ [""])
  = rows.
Proof.
  induction 1 as [|[scope name] rows (Hc & Hs & Hn) _ IH]; [done|].
  simpl in Hc. rewrite fmap_cons. simpl.
  change ("," +:+ name) with (String ","%char name).
  rewrite split_first_app by done. simpl. f_equal. exact IH.
Qed.

Lemma parse_csv_rows rows :
  Forall plain_row rows →
  parse_csv ("scope,name" +:+ newline
             +:+ foldr (λ row text, csv_line row +:+ text) "" rows)
  = rows.
Proof.
  intros Hrows. unfold parse_csv, newline.
  change ("scope,name" +:+ String "010"%char "" +:+ ?t)
    with ("scope,name" +:+ String "010"%char t).
  rewrite split_on_app by reflexivity.
  rewrite split_lines_rows by done. by apply omap_split_rows.
Qed.

Lemma csv_rows_Permutation reg :
  csv_rows reg
  ≡ₚ map_to_list reg ≫= λ scope_names,
       (λ name, (scope_names.1, name)) <$> scope_names.2.
Proof.
  unfold csv_rows. rewrite merge_sort_Permutation.
  induction (map_to_list reg) as [|[scope names] l IH]; [done|].
  rewrite !bind_cons. simpl. by rewrite IH, merge_sort_Permutation.
Qed.

Lemma elem_of_csv_rows reg scope name :
  (scope, name) ∈ csv_rows reg
  ↔ ∃ names, reg !! scope = Some names ∧ name ∈ names.
Proof.
  rewrite csv_rows_Permutation, list_elem_of_bind. split.
  - intros ([scope' names] & Hin & Hmap). simpl in Hin.
    apply list_elem_of_fmap in Hin as (name' & [= -> ->] & Hname).
    exists names. split; [by apply elem_of_map_to_list|done].
  - intros (names & Hnames & Hname). exists (scope, names). split.
    + simpl. apply list_elem_of_fmap. by exists name.
    + by apply elem_of_map_to_list.
Qed.

Lemma list_to_set_csv_rows reg :
  list_to_set (csv_rows reg) = registry_pairs reg.
Proof.
  unfold registry_pairs. apply list_to_set_perm_L, csv_rows_Permutation.
Qed.

Lemma elem_of_registry_pairs reg scope name :
  (scope, name) ∈ registry_pairs reg
  ↔ ∃ names, reg !! scope = Some names ∧ name ∈ names.
Proof.
  by rewrite <-list_to_set_csv_rows, elem_of_list_to_set, elem_of_csv_rows.
Qed.

Lemma plain_registry_rows reg : plain_registry reg → Forall plain_row (csv_rows reg).
Proof.
  intros Hplain. apply Forall_forall. intros [scope name] Hin.
  apply elem_of_csv_rows in Hin as (names & Hnames & Hname).
  destruct (Hplain scope names Hnames) as (Hc & Hs & Hn).
  split_and!; simpl; [done..|]. by eapply Forall_forall in Hn.
Qed.
End report.

(** C7 as amended: for a registry whose scopes hold neither a comma nor a
    line feed and whose names hold no line feed, reading the flattened
    report back, row by row and cutting each row at its first comma, gives
    the rows that were written, and so exactly the set of (scope, name)
    pairs of the registry. *)
Theorem csv_round_trip (reg : gmap string (list string)) :
  plain_registry reg →
  parse_csv (csv_report reg) = csv_rows reg
  ∧ parsed_pairs (csv_report reg) = registry_pairs reg
  ∧ ∀ scope name,
      (scope, name) ∈ parsed_pairs (csv_report reg)
      ↔ ∃ names, reg !! scope = Some names ∧ name ∈ names.
Proof.
  intros Hplain.
  assert (parse_csv (csv_report reg) = csv_rows reg) as Hparse.
  { apply parse_csv_rows, plain_registry_rows, Hplain. }
  assert (parsed_pairs (csv_report reg) = registry_pairs reg) as Hpairs.
  { unfold parsed_pairs. rewrite Hparse. apply list_to_set_csv_rows. }
  split_and!; [done..|].
  intros scope name. rewrite Hpairs. apply elem_of_registry_pairs.
Qed.

Lemma csv_round_trip_witness :
  parse_csv (csv_report (<["s" := ["B"; "A"]]> {[ "t" := ["b,c"] ]}))
  = [("s", "A"); ("s", "B"); ("t", "b,c")].
Proof.
  destruct (csv_round_trip (<["s" := ["B"; "A"]]> {[ "t" := ["b,c"] ]}))
    as (Hparse & _).
  - apply (bool_decide_unpack _). vm_compute. exact I.
  - rewrite Hparse. vm_compute. reflexivity.
Defined.

(** C7 as stated fails on a scope that holds a comma: the row a,b,c is read
    back as the pair (a, "b,c"), and the registry with that pair writes the
    very same report, so no reader can tell the two apart. *)
Lemma csv_round_trip_fails_on_comma :
  parsed_pairs (csv_report {[ "a,b" := ["c"] ]}) ≠ registry_pairs {[ "a,b" := ["c"] ]}
  ∧ parse_csv (csv_report {[ "a,b" := ["c"] ]}) = [("a", "b,c")]
  ∧ csv_report {[ "a,b" := ["c"] ]} = csv_report {[ "a" := ["b,c"] ]}
  ∧ registry_pairs {[ "a,b" := ["c"] ]} ≠ registry_pairs {[ "a" := ["b,c"] ]}.
Proof.
  split_and!.
  - apply (bool_decide_unpack _). vm_compute. exact I.
  - vm_compute. reflexivity.
  - vm_compute. reflexivity.
  - apply (bool_decide_unpack _). vm_compute. exact I.
Qed.

(** ** The rate limiter's gate *)

Section gate.
Implicit Types (self : RateLimiter) (now woke t : Q).

Lemma Qltb_lt a b : Qltb a b = true ↔ (a < b)%Q.
Proof.
  unfold Qltb. rewrite negb_true_iff, <-not_true_iff_false, Qle_bool_iff.
  split; [apply Qnot_le_lt|apply Qlt_not_le].
Qed.

Lemma in_window_sleep now time_window t :
  in_window now time_window t → Qltb 0 (time_window - (now - t))%Q = true.
Proof. unfold in_window. rewrite !Qltb_lt. lra. Qed.

Lemma kept_head_in_window now time_window (times : list Q) oldest :
  filter (in_window now time_window) times !! 0 = Some oldest →
  in_window now time_window oldest.
Proof.
  intros Hhead. apply list_elem_of_lookup_2 in Hhead.
  by apply list_elem_of_filter in Hhead as [? _].
Qed.

Lemma length_filter_head {A} (P : A → Prop) `{!∀ x, Decision (P x)} (l : list A) x :
  l !! 0 = Some x → ¬ P x → S (length (filter P l)) ≤ length l.
Proof.
  destruct l as [|y l]; [done|]. intros [= ->] Hx.
  rewrite filter_cons, decide_False by done. simpl.
  pose proof (length_filter P l). lia.
Qed.
End gate.

(** With no call allowed per window and no call recorded, as in the limiter
    that the constructor returns for max_calls = 0, [acquire] raises
    [IndexError] and leaves the limiter as it was. *)
Theorem acquire_zero_raises (now woke time_window : Q) (N sem : Z) :
  (N ≤ 0)%Z →
  acquire now woke
    {| max_calls := N; time_window := time_window; semaphore := sem; call_times := [] |}
  = ({| max_calls := N; time_window := time_window; semaphore := sem;
        call_times := [] |}, Raise IndexError).
Proof.
  intros HN. unfold acquire. simpl. rewrite bool_decide_eq_true_2 by (simpl; lia).
  done.
Qed.

Lemma acquire_zero_raises_witness :
  ∃ limiter, RateLimiter_init 0 1 = Ok limiter
    ∧ acquire 5 5 limiter = (limiter, Raise IndexError).
Proof.
  eexists. split; [reflexivity|]. apply (acquire_zero_raises 5 5 1 0 0). lia.
Defined.

(** The gate keeps at most max_calls timestamps: if the limiter holds at
    most max_calls ≥ 1 timestamps and the time read after a sleep lies
    outside the window of the oldest timestamp kept, then so does the limiter
    after [acquire], and every timestamp it keeps before the new one lies
    within the window of the admitted call. *)
Theorem acquire_keeps_bound (now woke : Q) (self : RateLimiter) :
  (1 ≤ max_calls self)%Z →
  (Z.of_nat (length (call_times self)) ≤ max_calls self)%Z →
  (∀ oldest,
     filter (in_window now (time_window self)) (call_times self) !! 0 = Some oldest →
     ¬ in_window woke (time_window self) oldest) →
  ∃ self' slept kept,
    acquire now woke self = (self', Ok slept)
    ∧ call_times self' = kept ++ [if slept is Some _ then woke else now]
    ∧ Forall (in_window (if slept is Some _ then woke else now) (time_window self)) kept
    ∧ (Z.of_nat (length (call_times self')) ≤ max_calls self)%Z.
Proof.
  intros HN Hlen Hwoke. unfold acquire.
  set (kept := filter _ (call_times self)) in *.
  assert (length kept ≤ length (call_times self)) as Hkept by apply length_filter.
  case_bool_decide as Hfull.
  - destruct (kept !! 0) as [oldest|] eqn:Hhead.
    + rewrite in_window_sleep by (by eapply kept_head_in_window).
      eexists _, _, _. split; [reflexivity|]. simpl. split_and!; [done| |].
      * apply Forall_forall. by intros t [? _]%list_elem_of_filter.
      * rewrite length_app. simpl.
        pose proof (length_filter_head (in_window woke (time_window self)) kept
                      oldest Hhead (Hwoke oldest eq_refl)). lia.
    + apply lookup_ge_None in Hhead. lia.
  - eexists _, _, _. split; [reflexivity|]. simpl. split_and!; [done| |].
    + apply Forall_forall. by intros t [? _]%list_elem_of_filter.
    + rewrite length_app. simpl. lia.
Qed.

Lemma acquire_keeps_bound_witness :
  ∃ self' slept kept,
    acquire (21 # 2) 11
      {| max_calls := 1; time_window := 1; semaphore := 1; call_times := [10]%Q |}
    = (self', Ok slept)
    ∧ call_times self' = kept ++ [if slept is Some _ then 11%Q else (21 # 2)%Q]
    ∧ (Z.of_nat (length (call_times self')) ≤ 1)%Z.
Proof.
  destruct (acquire_keeps_bound (21 # 2) 11
    {| max_calls := 1; time_window := 1; semaphore := 1; call_times := [10]%Q |})
    as (self' & slept & kept & Heq & Htimes & _ & Hlen).
  - simpl. lia.
  - simpl. lia.
  - intros oldest. vm_compute. intros [= <-]. discriminate.
  - exists self', slept, kept. split; [exact Heq|]. split; [exact Htimes|exact Hlen].
Defined.

(** ** Keys of the replica dict *)

Section replica_dict.
Implicit Types (replicas : list replica) (acc d : gmap string replica).

Lemma replica_dict_of_cons_key r replicas acc key :
  replica_key r = Some key →
  replica_dict_of (r :: replicas) acc = replica_dict_of replicas (<[key := r]> acc).
Proof.
  unfold replica_key. simpl.
  destruct (r_scope r) as [scope|]; [|done].
  destruct (r_name r) as [name|]; [|done]. simpl. by intros [= <-].
Qed.

Lemma replica_dict_of_lookup replicas acc :
  Forall (λ r, is_Some (replica_key r)) replicas →
  ∃ d, replica_dict_of replicas acc = Ok d
    ∧ ∀ key, d !! key
        = match last (filter (filed_under key) replicas) with
          | Some r => Some r
          | None => acc !! key
          end.
Proof.
  intros Hall. revert acc.
  induction Hall as [|r replicas [k Hk] _ IH]; intros acc.
  - exists acc. by split.
  - destruct (IH (<[k := r]> acc)) as (d & Hd & Hlookup).
    exists d. split; [by rewrite (replica_dict_of_cons_key _ _ _ k)|].
    intros key. rewrite Hlookup, filter_cons.
    destruct (decide (filed_under key r)) as [Hkey|Hkey].
    + assert (k = key) as -> by (unfold filed_under in Hkey; congruence).
      destruct (filter (filed_under key) replicas) as [|r' l] eqn:Hf using rev_ind.
      * simpl. by rewrite lookup_insert_eq.
      * by rewrite app_comm_cons, !last_snoc.
    + destruct (last _); [done|]. rewrite lookup_insert_ne; [done|].
      intros ->. by apply Hkey.
Qed.

Lemma replica_dict_of_raises replicas acc :
  ¬ Forall (λ r, is_Some (replica_key r)) replicas →
  ∃ key, replica_dict_of replicas acc = Raise (KeyError key).
Proof.
  revert acc. induction replicas as [|r replicas IH]; intros acc Hnot.
  - destruct Hnot. constructor.
  - destruct (replica_key r) as [k|] eqn:Hk.
    + rewrite (replica_dict_of_cons_key _ _ _ k) by done. apply IH.
      intros Hall. apply Hnot. constructor; [by rewrite Hk|done].
    + unfold replica_key in Hk. simpl.
      destruct (r_scope r) as [scope|]; [|by eexists].
      destruct (r_name r) as [name|]; [done|by eexists].
Qed.
End replica_dict.

(** A replica response whose records all carry 'scope' and 'name' is
    turned into a dict without touching the checker: every key holds the
    last record of the response filed under it, and no other key is
    present. *)
Theorem check_replica_locations_dict (client : Client) (dids : list did)
    (self : UniqueReplicaChecker) (replicas : list replica) :
  dids ≠ [] →
  list_replicas client dids = Ok replicas →
  Forall (λ r, is_Some (replica_key r)) replicas →
  ∃ replica_dict,
    check_replica_locations client dids self = (self, Ok replica_dict)
    ∧ ∀ key, replica_dict !! key = last (filter (filed_under key) replicas).
Proof.
  intros Hne Hresp Hall.
  destruct (replica_dict_of_lookup replicas ∅ Hall) as (d & Hd & Hlookup).
  exists d. split.
  - unfold check_replica_locations, replica_lookup.
    destruct dids; [done|]. rewrite Hresp. simpl. by rewrite Hd.
  - intros key. rewrite Hlookup, lookup_empty. by destruct (last _).
Qed.

Lemma check_replica_locations_dict_witness :
  ∃ replica_dict,
    check_replica_locations example_client [DID "s" "A"; DID "s" "B"] (new_checker "X")
    = (new_checker "X", Ok replica_dict)
    ∧ replica_dict !! "s:A" = Some replica_A
    ∧ replica_dict !! "s:C" = None.
Proof.
  destruct (check_replica_locations_dict example_client [DID "s" "A"; DID "s" "B"]
              (new_checker "X") [replica_A; replica_B])
    as (d & Heq & Hlookup).
  - discriminate.
  - reflexivity.
  - repeat constructor; eexists; reflexivity.
  - exists d. split; [exact Heq|]. rewrite !Hlookup. split; reflexivity.
Defined.

(** A replica response with a record that lacks 'scope' or 'name' is
    handled like a failed lookup: the [KeyError] is caught, the errors
    counter grows by the number of identifiers asked for, and the empty
    dict is returned, so no file of the batch is checked. *)
Theorem check_replica_locations_malformed (client : Client) (dids : list did)
    (self : UniqueReplicaChecker) (replicas : list replica) :
  dids ≠ [] →
  list_replicas client dids = Ok replicas →
  ¬ Forall (λ r, is_Some (replica_key r)) replicas →
  check_replica_locations client dids self
  = (set_stats
       (update_stats_dict [("errors", Z.of_nat (length dids))] (stats self)) self,
     Ok ∅).
Proof.
  intros Hne Hresp Hbad.
  destruct (replica_dict_of_raises replicas ∅ Hbad) as [key Hraise].
  unfold check_replica_locations, replica_lookup.
  destruct dids; [done|]. rewrite Hresp. simpl. by rewrite Hraise.
Qed.

Lemma check_replica_locations_malformed_witness :
  check_replica_locations
    {| list_datasets_per_rse := λ _, Ok [];
       list_files := λ _ _, Ok [];
       list_replicas := λ _, Ok [replica_A; Replica (Some "s") None None None] |}
    [DID "s" "A"; DID "s" "B"] (new_checker "X")
  = (set_stats (update_stats_dict [("errors", 2%Z)] initial_stats) (new_checker "X"),
     Ok ∅).
Proof.
  apply (check_replica_locations_malformed _ [DID "s" "A"; DID "s" "B"] (new_checker "X")
           [replica_A; Replica (Some "s") None None None]).
  - discriminate.
  - reflexivity.
  - intros Hall. apply Forall_cons in Hall as [_ Hall].
    apply Forall_cons in Hall as [[key Hkey] _]. discriminate.
Defined.

(** The key "scope:name" tells two files apart as long as their scopes hold
    no colon. *)
Theorem did_key_inj (scope1 name1 scope2 name2 : string) :
  occurs ":"%char scope1 = false → occurs ":"%char scope2 = false →
  did_key scope1 name1 = did_key scope2 name2 →
  scope1 = scope2 ∧ name1 = name2.
Proof.
  intros H1 H2 Heq. unfold did_key in Heq.
  change (":" +:+ ?n) with (String ":"%char n) in Heq.
  apply (f_equal (split_first ":"%char)) in Heq.
  rewrite !split_first_app in Heq by done. by injection Heq.
Qed.

Lemma did_key_inj_witness : "user.x" = "user.x" ∧ "file:1" = "file:1".
Proof.
  apply (did_key_inj "user.x" "file:1" "user.x" "file:1"); reflexivity.
Defined.

(** With a colon in a scope two different files can share a key, so that
    the replica record of one is looked up for the other. *)
Lemma did_key_collision (scope middle name : string) :
  did_key (scope +:+ ":" +:+ middle) name = did_key scope (middle +:+ ":" +:+ name).
Proof. unfold did_key. by rewrite !string_app_assoc. Qed.

(** ** The batches of a dataset *)

Lemma batches_of_lengths (files : list did) :
  Forall (λ batch, 1 ≤ length batch ≤ batch_size) (batches_of files).
Proof.
  unfold batches_of. rewrite range_from_zero. unfold batch_size.
  apply Forall_fmap, Forall_fmap, Forall_forall. intros k Hk.
  apply elem_of_seq in Hk as [_ Hk].
  unfold compose, slice. rewrite length_take, length_drop.
  pose proof (Nat.div_mod_eq (length files + 100 - 1) 100) as Hdiv.
  pose proof (Nat.mod_upper_bound (length files + 100 - 1) 100) as Hmod.
  revert Hk Hdiv Hmod.
  generalize ((length files + 100 - 1) / 100) ((length files + 100 - 1) mod 100).
  intros q r. nia.
Qed.

(** The batches of a file list are consecutive slices of at most 100 and
    at least 1 file: put end to end they give back the list, there are
    ⌈n / 100⌉ of them, and no replica query asks for more than 100
    identifiers. *)
Theorem batches_of_partition (files : list did) :
  concat (batches_of files) = files
  ∧ length (batches_of files) = (length files + 99) / 100
  ∧ Forall (λ batch, 1 ≤ length batch ≤ 100 ∧ length (dids_of batch) ≤ 100)
      (batches_of files).
Proof.
  split_and!.
  - apply concat_batches_of.
  - unfold batches_of. rewrite range_from_zero, !length_fmap, length_seq.
    unfold batch_size. f_equal. lia.
  - eapply Forall_impl; [apply batches_of_lengths|].
    intros batch. unfold batch_size. rewrite length_dids_of. lia.
Qed.

(** ** A dataset is always processed to the end *)


(** ** What a dataset adds to the registry *)

Lemma names_of_register_all scope files reg :
  names_of scope (register_all files reg) = names_of scope reg ++ names_in scope files.
Proof.
  revert reg. induction files as [|f files IH]; intros reg.
  - unfold names_in. simpl. by rewrite app_nil_r.
  - change (f :: files) with ([f] ++ files).
    rewrite register_all_app, IH. unfold names_in. rewrite filter_app, fmap_app, app_assoc.
    f_equal. unfold register_all. simpl. rewrite names_of_registry_append.
    rewrite filter_cons, filter_nil.
    destruct (decide (did_scope f = scope)) as [<-|Hne]; simpl; [done|].
    by rewrite app_nil_r.
Qed.



(** ** Where the files of a dataset go *)

Section accounting.
Context (client : Client).

Lemma delta_of_errors_batch batch :
  delta_of "errors" (batch_kwargs client batch)
  = Z.of_nat (length (failed_in client batch)).
Proof.
  unfold batch_kwargs, failed_in.
  destruct (dids_of batch) as [|d dids] eqn:Hd; [done|].
  destruct (replica_lookup client _); [done|]. simpl.
  rewrite <-(length_dids_of batch), Hd. simpl. lia.
Qed.

Lemma delta_of_errors_batches bs :
  delta_of "errors" (bs ≫= batch_kwargs client)
  = Z.of_nat (length (bs ≫= failed_in client)).
Proof.
  induction bs as [|batch bs IH]; [done|].
  rewrite !bind_cons, delta_of_app, length_app, IH, delta_of_errors_batch. lia.
Qed.

Lemma failed_in_checked batch :
  length (checked_in client batch) + length (failed_in client batch) ≤ length batch.
Proof.
  unfold failed_in, checked_in, batch_replicas.
  destruct (dids_of batch) as [|d dids] eqn:Hd.
  { pose proof (length_filter (has_replica ∅) batch). simpl. lia. }
  destruct (replica_lookup client _).
  - pose proof (length_filter (has_replica a) batch). simpl. lia.
  - rewrite filter_False; [simpl; lia|].
    intros f. unfold has_replica. rewrite lookup_empty. by intros [? ?].
Qed.

Lemma failed_in_checked_batches bs :
  length (bs ≫= checked_in client) + length (bs ≫= failed_in client)
  ≤ length (concat bs).
Proof.
  induction bs as [|batch bs IH]; [done|].
  rewrite !bind_cons. simpl. rewrite !length_app.
  pose proof (failed_in_checked batch). lia.
Qed.

Lemma delta_of_errors_dataset target dataset :
  delta_of "errors" (dataset_kwargs client target dataset)
  = (match list_files client (did_scope dataset) (did_name dataset) with
     | Ok _ => 0 | Raise _ => 1 end
     + Z.of_nat (length (dataset_failed client dataset)))%Z.
Proof.
  unfold dataset_kwargs, dataset_failed, listing_kwargs, listed_files.
  destruct (list_files client _ _) as [[|f files]|e]; simpl; try done.
  rewrite delta_of_app, delta_of_errors_batches. simpl. lia.
Qed.
End accounting.

(** The errors counter after a dataset: one error when the file listing
    raised, plus one per file of every batch whose replica lookup failed.
    No file is both checked and counted as an error: the files checked and
    the files of failed batches together are at most the files listed. *)
Theorem process_dataset_errors (client : Client) (dataset : did)
    (self : UniqueReplicaChecker) :
  wf_stats self →
  ∃ self' files_checked unique_files_found,
    process_dataset client dataset self
    = (self', Ok (files_checked, unique_files_found))
    ∧ stat "errors" self'
      = (stat "errors" self
         + match list_files client (did_scope dataset) (did_name dataset) with
           | Ok _ => 0 | Raise _ => 1 end
         + Z.of_nat (length (dataset_failed client dataset)))%Z
    ∧ files_checked + length (dataset_failed client dataset)
      ≤ length (listed_files client dataset).
Proof.
  intros Hwf.
  pose proof (stat_process_dataset client dataset self "errors" Hwf) as Hstat.
  rewrite process_dataset_run in *. simpl in Hstat.
  eexists _, _, _. split; [reflexivity|]. split.
  - rewrite Hstat by solve_counter. rewrite delta_of_errors_dataset. lia.
  - unfold dataset_checked, dataset_failed.
    rewrite <-(concat_batches_of (listed_files client dataset)) at 3.
    apply failed_in_checked_batches.
Qed.

Lemma process_dataset_errors_witness :
  ∃ self' files_checked unique_files_found,
    process_dataset example_client (DID "s" "ds3") (new_checker "X")
    = (self', Ok (files_checked, unique_files_found))
    ∧ stat "errors" self' = 1%Z
    ∧ files_checked + 1 ≤ 1.
Proof.
  destruct (process_dataset_errors example_client (DID "s" "ds3") (new_checker "X"))
    as (self' & fc & uf & Heq & Herr & Hle).
  - apply wf_stats_new.
  - exists self', fc, uf. split; [exact Heq|]. split; [exact Herr|exact Hle].
Defined.

Lemma filter_all {A} (P : A → Prop) `{!∀ x, Decision (P x)} (l : list A) :
  Forall P l → filter P l = l.
Proof.
  induction 1 as [|x l Hx _ IH]; [done|].
  rewrite filter_cons, decide_True by done. by rewrite IH.
Qed.

(** When the listing succeeds and every replica lookup of the dataset
    answers with a record for each file of its batch, every file listed is
    counted as checked and no error is counted. *)
Theorem process_dataset_complete (client : Client) (dataset : did)
    (self : UniqueReplicaChecker) (files : list did) :
  wf_stats self →
  list_files client (did_scope dataset) (did_name dataset) = Ok files →
  (∀ batch, batch ∈ batches_of files →
     Forall (has_replica (batch_replicas client batch)) batch) →
  ∃ self' unique_files_found,
    process_dataset client dataset self
    = (self', Ok (length files, unique_files_found))
    ∧ stat "errors" self' = stat "errors" self.
Proof.
  intros Hwf Hlist Hall.
  assert (listed_files client dataset = files) as Hfiles.
  { unfold listed_files. by rewrite Hlist. }
  assert (∀ bs : list (list did),
            (∀ batch, batch ∈ bs → Forall (has_replica (batch_replicas client batch)) batch) →
            bs ≫= checked_in client = concat bs
            ∧ bs ≫= failed_in client = []) as Hbs.
  { induction bs as [|batch bs IH]; intros Hin; [done|].
    rewrite !bind_cons. simpl.
    destruct IH as [-> ->]; [intros b Hb; apply Hin; by right|].
    pose proof (Hin batch (list_elem_of_here _ _)) as Hbatch.
    assert (checked_in client batch = batch) as Hc.
    { unfold checked_in. by apply filter_all. }
    split; [by rewrite Hc|].
    pose proof (failed_in_checked client batch) as Hle. rewrite Hc in Hle.
    destruct (failed_in client batch); [done|simpl in Hle; lia]. }
  destruct (Hbs (batches_of files) Hall) as [Hchecked Hfailed].
  destruct (process_dataset_errors client dataset self Hwf)
    as (self' & fc & uf & Heq & Herr & _).
  rewrite process_dataset_run in Heq. injection Heq as <- Hfc Huf.
  rewrite process_dataset_run. eexists _, _. split.
  - do 3 f_equal. unfold dataset_checked.
    by rewrite Hfiles, Hchecked, concat_batches_of.
  - rewrite Herr, Hlist. unfold dataset_failed. rewrite Hfiles, Hfailed. simpl. lia.
Qed.

Lemma process_dataset_complete_witness :
  ∃ self' unique_files_found,
    process_dataset example_client (DID "s" "ds") (new_checker "X")
    = (self', Ok (2, unique_files_found))
    ∧ stat "errors" self' = 0%Z.
Proof.
  destruct (process_dataset_complete example_client (DID "s" "ds") (new_checker "X")
              [DID "s" "A"; DID "s" "B"])
    as (self' & uf & Heq & Herr).
  - apply wf_stats_new.
  - reflexivity.
  - intros batch Hbatch. apply list_elem_of_singleton in Hbatch as ->.
    repeat constructor; by_compute.
  - exists self', uf. split; [exact Heq|exact Herr].
Defined.


(** ** The run as a whole *)

Section whole_run.
Context (client : Client).

Lemma process_all_eq datasets target reg st :
  process_all client datasets (Checker target reg st)
  = (Checker target
       (register_all (datasets ≫= dataset_unique client target) reg)
       (update_stats_dict (datasets ≫= dataset_kwargs client target) st),
     Ok ()).
Proof.
  revert reg st. induction datasets as [|dataset datasets IH]; intros reg st; [done|].
  rewrite process_all_cons, process_dataset_eq, !bind_cons. cbn [fst].
  by rewrite IH, register_all_app, update_stats_dict_app.
Qed.

Lemma delta_of_Permutation key kwargs1 kwargs2 :
  kwargs1 ≡ₚ kwargs2 → delta_of key kwargs1 = delta_of key kwargs2.
Proof.
  induction 1 as [|kv ?? _ IH|kv1 kv2 ?|??? _ IH1 _ IH2]; simpl.
  - done.
  - by rewrite IH.
  - destruct (decide (kv1.1 = key)), (decide (kv2.1 = key)); lia.
  - congruence.
Qed.

(** What a list of datasets adds to the counters. *)
Lemma delta_of_datasets target datasets :
  (delta_of "datasets_processed" (datasets ≫= dataset_kwargs client target)
   + delta_of "skipped" (datasets ≫= dataset_kwargs client target)
   = Z.of_nat (length datasets))%Z
  ∧ (0 ≤ delta_of "unique_files_found" (datasets ≫= dataset_kwargs client target)
     ≤ delta_of "files_checked" (datasets ≫= dataset_kwargs client target))%Z
  ∧ (0 ≤ delta_of "errors" (datasets ≫= dataset_kwargs client target))%Z
  ∧ delta_of "datasets_found" (datasets ≫= dataset_kwargs client target) = 0%Z
  ∧ (0 ≤ delta_of "datasets_processed" (datasets ≫= dataset_kwargs client target))%Z
  ∧ (0 ≤ delta_of "skipped" (datasets ≫= dataset_kwargs client target))%Z.
Proof.
  induction datasets as [|dataset datasets IH]; [by simpl; lia|].
  rewrite bind_cons, !delta_of_app, delta_of_errors_dataset.
  rewrite !delta_of_dataset_kwargs by done.
  pose proof (length_dataset_unique client target dataset).
  destruct (listed_files client dataset), (list_files client _ _); simpl; lia.
Qed.
End whole_run.

(** Over the tasks of the pool every dataset is counted exactly once, as
    processed or as skipped: datasets_processed + skipped grows by the
    number of datasets, datasets_found is not touched, and
    unique_files_found grows by no more than files_checked does.  (Datasets
    and listed files carry 'scope' and 'name', as [did] has them.) *)
Theorem process_all_accounts (client : Client) (datasets : list did)
    (self : UniqueReplicaChecker) :
  wf_stats self →
  ∃ self',
    process_all client datasets self = (self', Ok ())
    ∧ (stat "datasets_processed" self' + stat "skipped" self'
       = stat "datasets_processed" self + stat "skipped" self
         + Z.of_nat (length datasets))%Z
    ∧ stat "datasets_found" self' = stat "datasets_found" self
    ∧ (0 ≤ stat "unique_files_found" self' - stat "unique_files_found" self
       ≤ stat "files_checked" self' - stat "files_checked" self)%Z.
Proof.
  intros Hwf. destruct self as [target reg st]. rewrite process_all_eq.
  eexists. split; [reflexivity|].
  destruct (delta_of_datasets client target datasets)
    as (Hsum & Huniq & _ & Hfound & _ & _).
  assert (∀ key, key ∈ counters →
            stat key (Checker target
              (register_all (datasets ≫= dataset_unique client target) reg)
              (update_stats_dict (datasets ≫= dataset_kwargs client target) st))
            = (stat key (Checker target reg st)
               + delta_of key (datasets ≫= dataset_kwargs client target))%Z) as Hstat.
  { intros key Hkey. unfold stat. cbn [stats]. rewrite update_stats_dict_lookup.
    assert (key ∈ dom st) as [v Hv]%elem_of_dom
      by (by apply (stat_counter_dom (Checker target reg st))).
    by rewrite Hv. }
  rewrite !Hstat by solve_counter. split_and!; lia.
Qed.

Lemma process_all_accounts_witness :
  ∃ self',
    process_all example_client
      [DID "s" "ds"; DID "s" "ds2"; DID "s" "ds3"; DID "s" "empty"; DID "s" "gone"]
      (new_checker "X") = (self', Ok ())
    ∧ (stat "datasets_processed" self' + stat "skipped" self' = 5)%Z.
Proof.
  destruct (process_all_accounts example_client
              [DID "s" "ds"; DID "s" "ds2"; DID "s" "ds3"; DID "s" "empty"; DID "s" "gone"]
              (new_checker "X") (wf_stats_new "X"))
    as (self' & Heq & Hsum & _).
  exists self'. split; [exact Heq|]. rewrite Hsum. reflexivity.
Defined.

(** The result does not depend on the order in which the datasets are
    processed: for two orders of the same datasets the statistics are the
    same, and under every scope the registry holds the same names, up to
    their order. *)
Theorem process_all_order (client : Client) (datasets1 datasets2 : list did)
    (self : UniqueReplicaChecker) :
  datasets1 ≡ₚ datasets2 →
  stats (process_all client datasets1 self).1
  = stats (process_all client datasets2 self).1
  ∧ ∀ scope,
      names_of scope (unique_files (process_all client datasets1 self).1)
      ≡ₚ names_of scope (unique_files (process_all client datasets2 self).1).
Proof.
  intros Hperm. destruct self as [target reg st].
  rewrite !process_all_eq. simpl. split.
  - apply map_eq. intros key. rewrite !update_stats_dict_lookup.
    by rewrite (delta_of_Permutation key _ (datasets2 ≫= dataset_kwargs client target))
      by (by rewrite Hperm).
  - intros scope. rewrite !names_of_register_all. unfold names_in.
    by rewrite Hperm.
Qed.

Lemma process_all_order_witness :
  stats (process_all example_client [DID "s" "ds"; DID "s" "gone"] (new_checker "X")).1
  = stats (process_all example_client [DID "s" "gone"; DID "s" "ds"] (new_checker "X")).1.
Proof.
  apply (process_all_order example_client [DID "s" "ds"; DID "s" "gone"]
           [DID "s" "gone"; DID "s" "ds"] (new_checker "X")).
  apply Permutation_swap.
Defined.

(** ** Updates of the statistics in any order *)

(** Two updates of the statistics commute, and so do the keyword arguments
    of one update: the statistics reached do not depend on the order in
    which the workers get to make their updates. *)
Theorem update_stats_commute (kwargs1 kwargs2 : list (string * Z))
    (self : UniqueReplicaChecker) :
  (self' ← update_stats kwargs1; update_stats kwargs2) self
  = (self' ← update_stats kwargs2; update_stats kwargs1) self
  ∧ (∀ kwargs, kwargs ≡ₚ kwargs1 → update_stats kwargs self = update_stats kwargs1 self)
  ∧ (self' ← update_stats kwargs1; update_stats kwargs2) self
    = update_stats (kwargs1 ++ kwargs2) self.
Proof.
  assert (∀ k1 k2, k1 ≡ₚ k2 →
            update_stats_dict k1 (stats self) = update_stats_dict k2 (stats self)) as Hperm.
  { intros k1 k2 Hk. apply map_eq. intros key.
    by rewrite !update_stats_dict_lookup, (delta_of_Permutation key k1 k2). }
  split_and!.
  - rewrite !bind_M. unfold update_stats, set_stats. simpl. do 2 f_equal.
    rewrite <-!update_stats_dict_app. apply Hperm, Permutation_app_comm.
  - intros kwargs Hk. unfold update_stats. by rewrite (Hperm kwargs kwargs1).
  - rewrite bind_M. unfold update_stats, set_stats. simpl.
    by rewrite update_stats_dict_app.
Qed.

Lemma update_stats_commute_witness :
  update_stats [("errors", 1%Z); ("skipped", 2%Z)] (new_checker "X")
  = update_stats [("skipped", 2%Z); ("errors", 1%Z)] (new_checker "X").
Proof.
  destruct (update_stats_commute [("skipped", 2%Z); ("errors", 1%Z)] [] (new_checker "X"))
    as (_ & Hperm & _).
  apply Hperm. apply Permutation_swap.
Defined.

(** ** The evaluator on a record without 'name' *)

(** On a record without 'name' the evaluator never returns: it raises
    [KeyError], for 'name', or for 'scope' when the file is unique and
    'scope' is missing too.  A unique file whose record has a 'name' but no
    'scope' raises [KeyError] for 'scope'. *)
Theorem is_unique_at_rse_missing_key (self : UniqueReplicaChecker)
    (replica_info : replica) :
  (r_name replica_info = None →
     is_unique_at_rse self replica_info = Raise (KeyError "name")
     ∨ (r_scope replica_info = None
        ∧ is_unique_at_rse self replica_info = Raise (KeyError "scope")))
  ∧ (r_scope replica_info = None → is_Some (r_name replica_info) →
     sole_available_copy (rse self) replica_info →
     is_unique_at_rse self replica_info = Raise (KeyError "scope")).
Proof.
  split.
  - intros Hname. unfold is_unique_at_rse. rewrite Hname.
    repeat case_bool_decide; simpl; auto.
    destruct (r_scope replica_info); simpl; auto.
  - intros Hscope [name Hname] Hsole.
    assert (is_unique_at_rse self
              (Replica (Some "") (r_name replica_info) (r_rses replica_info)
                 (r_states replica_info)) = Ok true) as Hfull.
    { rewrite (is_unique_at_rse_decides _ _ "" name) by done.
      by rewrite bool_decide_eq_true_2. }
    revert Hfull. unfold is_unique_at_rse. simpl. rewrite Hscope, Hname.
    repeat case_bool_decide; simpl; done.
Qed.

Lemma is_unique_at_rse_missing_key_witness :
  is_unique_at_rse (new_checker "X")
    (Replica None (Some "A") (Some {[ "X" := ["x/A"] ]}) (Some {[ "X" := AVAILABLE ]}))
  = Raise (KeyError "scope").
Proof.
  destruct (is_unique_at_rse_missing_key (new_checker "X")
    (Replica None (Some "A") (Some {[ "X" := ["x/A"] ]}) (Some {[ "X" := AVAILABLE ]})))
    as [_ Hscope].
  apply Hscope; [reflexivity|by eexists|].
  split_and!; by_compute.
Defined.

(** ** The rows of the flattened report *)

Lemma total_unique_map_to_list (reg : gmap string (list string)) :
  total_unique reg
  = length (map_to_list reg ≫= λ scope_names,
              (λ name, (scope_names.1, name)) <$> scope_names.2).
Proof.
  induction reg as [|scope names reg Hfresh IH] using map_ind; [done|].
  rewrite total_unique_insert, delete_id by done.
  rewrite map_to_list_insert by done.
  rewrite bind_cons, length_app, length_fmap, IH. done.
Qed.

(** The flattened report has one row per entry of the registry, repeated
    names included; after a run this is the value of unique_files_found. *)
Theorem csv_rows_count (client : Client) (target : string)
    (reg : gmap string (list string)) :
  length (csv_rows reg) = total_unique reg
  ∧ Z.of_nat (length (csv_rows (unique_files (run client (new_checker target)).1)))
    = stat "unique_files_found" (run client (new_checker target)).1.
Proof.
  assert (∀ r, length (csv_rows r) = total_unique r) as Hrows.
  { intros r. by rewrite csv_rows_Permutation, total_unique_map_to_list. }
  split; [apply Hrows|]. by rewrite Hrows, run_invariant.
Qed.

(** ** The order of the rows of the flattened report *)

Section row_order.
Implicit Types (reg : gmap string (list string)).

Lemma leb_le (s1 s2 : string) : String.leb s1 s2 = true ↔ String.le s1 s2.
Proof. unfold String.le. by rewrite Is_true_true. Qed.

Global Instance name_le_trans : Transitive name_le.
Proof.
  intros x y z. unfold name_le. rewrite !leb_le. apply (transitivity (R := String.le)).
Qed.
Global Instance name_le_antisym : AntiSymm (=) name_le.
Proof. intros x y. unfold name_le. apply String.leb_antisym. Qed.
Global Instance name_le_total : Total name_le.
Proof. intros x y. apply String.leb_total. Qed.
Global Instance scope_le_trans : Transitive scope_le.
Proof. intros x y z. apply (transitivity (R := name_le)). Qed.
Global Instance scope_le_total : Total scope_le.
Proof. intros x y. apply String.leb_total. Qed.

Lemma merge_sort_names_perm (names1 names2 : list string) :
  names1 ≡ₚ names2 → merge_sort name_le names1 = merge_sort name_le names2.
Proof.
  intros Hperm. apply (Sorted_unique name_le).
  - apply Sorted_merge_sort, _.
  - apply Sorted_merge_sort, _.
  - by rewrite !merge_sort_Permutation.
Qed.

Lemma bind_fmap_list {A B C} (f : A → B) (g : B → list C) (l : list A) :
  (f <$> l) ≫= g = l ≫= (g ∘ f).
Proof. induction l as [|x l IH]; [done|]. by rewrite fmap_cons, !bind_cons, IH. Qed.

(** The rows are those of the registry with every list of names sorted. *)
Lemma sorted_scopes_fmap reg :
  prod_map id (merge_sort name_le) <$> merge_sort scope_le (map_to_list reg)
  = merge_sort scope_le (map_to_list (merge_sort name_le <$> reg)).
Proof.
  apply (Sorted_unique_strong scope_le).
  - intros x1 x2 H1 H2 H12 H21.
    assert (x1.1 = x2.1) as Hkey by (by apply String.leb_antisym).
    rewrite merge_sort_Permutation in H1, H2.
    rewrite <-map_to_list_fmap in H1.
    destruct x1 as [k1 v1], x2 as [k2 v2]. simpl in *. subst k2.
    apply elem_of_map_to_list in H1, H2. congruence.
  - apply (Sorted_fmap _ scope_le scope_le); [by intros [??] [??]|].
    apply Sorted_merge_sort, _.
  - apply Sorted_merge_sort, _.
  - by rewrite !merge_sort_Permutation, map_to_list_fmap.
Qed.

Lemma csv_rows_sorted_names reg :
  csv_rows reg
  = merge_sort scope_le (map_to_list (merge_sort name_le <$> reg))
    ≫= λ scope_names, (λ name, (scope_names.1, name)) <$> scope_names.2.
Proof.
  rewrite <-sorted_scopes_fmap, bind_fmap_list. unfold csv_rows.
  induction (merge_sort scope_le (map_to_list reg)) as [|[scope names] l IH]; [done|].
  by rewrite !bind_cons, IH.
Qed.

Lemma sorted_names_eq reg1 reg2 :
  dom reg1 = dom reg2 →
  (∀ scope, names_of scope reg1 ≡ₚ names_of scope reg2) →
  merge_sort name_le <$> reg1 = merge_sort name_le <$> reg2.
Proof.
  intros Hdom Hnames. apply map_eq. intros scope. rewrite !lookup_fmap.
  specialize (Hnames scope). unfold names_of in Hnames.
  assert (is_Some (reg1 !! scope) ↔ is_Some (reg2 !! scope)) as Hsome.
  { by rewrite <-!elem_of_dom, Hdom. }
  destruct (reg1 !! scope) as [l1|], (reg2 !! scope) as [l2|]; simpl in *.
  - f_equal. by apply merge_sort_names_perm.
  - destruct Hsome as [[? ?] _]; by eauto.
  - destruct Hsome as [_ [? ?]]; by eauto.
  - done.
Qed.

Lemma dom_register_all files reg :
  dom (register_all files reg) = dom reg ∪ list_to_set (did_scope <$> files).
Proof.
  revert reg. induction files as [|f files IH]; intros reg.
  - unfold register_all. simpl. by rewrite (right_id_L ∅ (∪) (dom reg)).
  - change (f :: files) with ([f] ++ files). rewrite register_all_app, IH.
    unfold register_all, registry_append. simpl.
    rewrite dom_insert_L. apply set_eq. intros x.
    rewrite !elem_of_union. tauto.
Qed.
End row_order.

(** The flattened report does not depend on the order in which names were
    inserted: two registries with the same scopes and, under every scope,
    the same names up to their order, give the same report.  So the report
    of a run is the same for every order in which the datasets are
    processed. *)
Theorem csv_report_order (client : Client) (reg1 reg2 : gmap string (list string)) :
  (dom reg1 = dom reg2 →
   (∀ scope, names_of scope reg1 ≡ₚ names_of scope reg2) →
   csv_report reg1 = csv_report reg2)
  ∧ ∀ datasets1 datasets2 self,
      datasets1 ≡ₚ datasets2 →
      csv_report (unique_files (process_all client datasets1 self).1)
      = csv_report (unique_files (process_all client datasets2 self).1).
Proof.
  assert (∀ r1 r2 : gmap string (list string), dom r1 = dom r2 →
            (∀ scope, names_of scope r1 ≡ₚ names_of scope r2) →
            csv_report r1 = csv_report r2) as Hreport.
  { intros r1 r2 Hdom Hnames. unfold csv_report.
    by rewrite !csv_rows_sorted_names, (sorted_names_eq r1 r2). }
  split; [apply Hreport|].
  intros datasets1 datasets2 self Hperm. apply Hreport.
  - destruct self as [target reg st]. rewrite !process_all_eq. simpl.
    rewrite !dom_register_all. f_equal.
    apply list_to_set_perm_L. by rewrite Hperm.
  - by apply process_all_order.
Qed.

Lemma csv_report_order_witness :
  csv_report (<["s" := ["B"; "A"]]> {[ "t" := ["C"] ]})
  = csv_report (<["t" := ["C"]]> {[ "s" := ["A"; "B"] ]}).
Proof.
  destruct (csv_report_order example_client
              (<["s" := ["B"; "A"]]> {[ "t" := ["C"] ]})
              (<["t" := ["C"]]> {[ "s" := ["A"; "B"] ]})) as [Hreport _].
  apply Hreport.
  - by_compute.
  - intros scope. unfold names_of.
    destruct (decide (scope = "s")) as [->|Hs]; [vm_compute; apply Permutation_swap|].
    destruct (decide (scope = "t")) as [->|Ht]; [by vm_compute|].
    by rewrite !lookup_insert_ne, !lookup_singleton_ne by done.
Defined.

Section sorted_rows.
Implicit Types (reg : gmap string (list string)).

Lemma row_le_same_scope scope (names : list string) :
  StronglySorted row_le ((λ name, (scope, name)) <$> merge_sort name_le names).
Proof.
  apply (StronglySorted_fmap _ name_le row_le).
  - intros x y Hxy. by right.
  - apply StronglySorted_merge_sort; apply _.
Qed.

Lemma sorted_scopes_strict reg :
  StronglySorted (λ x y, x.1 ≠ y.1 ∧ scope_le x y)
    (merge_sort scope_le (map_to_list reg)).
Proof.
  assert (NoDup (merge_sort scope_le (map_to_list reg)).*1) as Hnd.
  { rewrite merge_sort_Permutation. apply NoDup_fst_map_to_list. }
  assert (StronglySorted scope_le (merge_sort scope_le (map_to_list reg))) as Hs.
  { apply StronglySorted_merge_sort; apply _. }
  induction Hs as [|x l Hl IH Hx]; [constructor|].
  rewrite fmap_cons in Hnd. apply NoDup_cons in Hnd as [Hx1 Hnd].
  constructor; [by apply IH|].
  apply Forall_forall. intros y Hy. split.
  - intros Heq. apply Hx1. rewrite Heq. by apply list_elem_of_fmap_2.
  - by eapply Forall_forall in Hx.
Qed.
End sorted_rows.

(** The rows of the flattened report are written in order: every row comes
    before all rows of a greater scope and, under the same scope, before
    all rows of a greater or equal name. *)
Theorem csv_rows_sorted (reg : gmap string (list string)) :
  StronglySorted row_le (csv_rows reg).
Proof.
  unfold csv_rows.
  induction (sorted_scopes_strict reg) as [|[scope names] l _ IH Hhead]; [constructor|].
  rewrite bind_cons. apply StronglySorted_app_2; [|apply row_le_same_scope|apply IH].
  intros [s1 n1] [s2 n2] H1 H2. simpl in H1.
  apply list_elem_of_fmap in H1 as (? & [= -> ->] & _).
  apply list_elem_of_bind in H2 as ([scope' names'] & H2 & Hl).
  apply list_elem_of_fmap in H2 as (? & [= -> ->] & _).
  eapply Forall_forall in Hhead as [Hne Hle]; [|exact Hl].
  left. by split.
Qed.

(** ** What processing never undoes *)

(** Processing datasets keeps the six counters as the keys of the
    statistics, never decreases a counter, and never removes or reorders
    what the registry already holds: under every scope the names recorded
    before are a prefix of the names recorded after. *)
Theorem process_all_monotone (client : Client) (datasets : list did)
    (self : UniqueReplicaChecker) :
  wf_stats self →
  ∃ self',
    process_all client datasets self = (self', Ok ())
    ∧ wf_stats self'
    ∧ (∀ key, (stat key self ≤ stat key self')%Z)
    ∧ ∀ scope, names_of scope (unique_files self)
               `prefix_of` names_of scope (unique_files self').
Proof.
  intros Hwf. destruct self as [target reg st]. rewrite process_all_eq.
  eexists. split; [reflexivity|].
  destruct (delta_of_datasets client target datasets)
    as (Hsum & Huniq & Herr & Hfound & Hproc & Hskip).
  unfold wf_stats in *. simpl in *. split_and!.
  - by rewrite dom_update_stats_dict.
  - intros key. unfold stat. simpl. rewrite update_stats_dict_lookup.
    destruct (st !! key) as [v|] eqn:Hv; [|done]. simpl.
    assert (key ∈ counters) as Hkey by (rewrite <-Hwf; apply elem_of_dom; eauto).
    unfold counters in Hkey. apply elem_of_list_to_set in Hkey.
    repeat (apply elem_of_cons in Hkey as [->|Hkey]); [lia..|].
    by apply elem_of_nil in Hkey.
  - intros scope. rewrite names_of_register_all. by apply prefix_app_r.
Qed.

Lemma process_all_monotone_witness :
  ∃ self',
    process_all example_client [DID "s" "ds"; DID "s" "gone"] (new_checker "X")
    = (self', Ok ())
    ∧ (0 ≤ stat "errors" self')%Z.
Proof.
  destruct (process_all_monotone example_client [DID "s" "ds"; DID "s" "gone"]
              (new_checker "X") (wf_stats_new "X"))
    as (self' & Heq & _ & Hmono & _).
  exists self'. split; [exact Heq|]. apply (Hmono "errors").
Defined.
